(** * TracePR: the query side of the retrieval pipeline

    A shallow embedding of [src/codegen/codegen_query.py]: the query loader of
    [generate_query_embedding], [cosine_similarity] and [find_relevant_files],
    together with the parts of Python and numpy they rest on (IEEE binary64
    arithmetic, [np.dot], [np.linalg.norm], [str.endswith], [list.sort] and
    slicing), and an analysis of the rounding error of the score. *)

From Stdlib Require Import String Ascii.
From Stdlib Require Import ZArith List Bool Lia Arith.
From Stdlib Require Import Permutation Sorted.
From Stdlib Require Import Floats.SpecFloat.
From Stdlib Require Import Reals Lra.
Import ListNotations.

(** ** Exceptions and the error monad *)

(** The exceptions the modelled code can raise: [np.dot] raises [ValueError]
    on shapes that are not aligned; [open] raises [OSError] on a path it
    cannot open and [ValueError] on a path with a null character, and [read]
    raises [UnicodeDecodeError], a [ValueError], on bytes it cannot decode;
    the tokenizer raises [ValueError] when it is asked to pad and has no
    padding token.  The libraries raise exceptions of other classes as well
    ([RuntimeError], [MemoryError], ...), which are told apart by the name of
    their class. *)
Inductive exn : Type :=
| ValueError
| OSError
| OtherError (class_name : string).

Inductive result (A : Type) : Type :=
| Ok (a : A)
| Raise (e : exn).

Arguments Ok {A} a.
Arguments Raise {A} e.

Definition bind {A B : Type} (m : result A) (k : A -> result B) : result B :=
  match m with
  | Ok a => k a
  | Raise e => Raise e
  end.

Notation "x <- m ;; k" := (bind m (fun x => k))
  (at level 61, m at next level, right associativity).

(** ** Scalars

    numpy arrays are generic in their element type.  The code is written once
    over the arithmetic it uses.  The program runs it on IEEE binary64 (what
    [np.array] makes of a JSON list of numbers); every statement about the
    program is about that instance.  The instance of the real numbers gives
    the exact sums that the error analysis compares the binary64 sums
    with. *)
Class Scalar (F : Type) : Type := {
  s_zero : F;
  s_add : F -> F -> F;
  s_mul : F -> F -> F;
  s_div : F -> F -> F;
  s_sqrt : F -> F
}.

(** *** IEEE 754 binary64 *)
Module B64.

Definition prec : Z := 53.
Definition emax : Z := 1024.

Definition t : Type := spec_float.

Definition zero : t := S754_zero false.
Definition nan : t := S754_nan.
Definition add : t -> t -> t := SFadd prec emax.
Definition mul : t -> t -> t := SFmul prec emax.
Definition div : t -> t -> t := SFdiv prec emax.
Definition sqrt : t -> t := SFsqrt prec emax.

(** Python's [<], [<=] and [==] on floats: all false on NaN. *)
Definition ltb : t -> t -> bool := SFltb.
Definition leb : t -> t -> bool := SFleb.
Definition eqb : t -> t -> bool := SFeqb.

Definition is_nan (x : t) : bool :=
  match x with S754_nan => true | _ => false end.

Definition is_inf (x : t) : bool :=
  match x with S754_infinity _ => true | _ => false end.

Definition is_zero (x : t) : bool :=
  match x with S754_zero _ => true | _ => false end.

(** The float of an integer, and of a decimal literal [n / 10^k] as
    [json.load] reads it (correctly rounded). *)
Definition of_Z (n : Z) : t :=
  binary_normalize prec emax n 0 false.

Definition of_decimal (n : Z) (k : nat) : t :=
  div (of_Z n) (of_Z (10 ^ Z.of_nat k)).

End B64.

#[export] Instance b64_scalar : Scalar B64.t := {
  s_zero := B64.zero;
  s_add := B64.add;
  s_mul := B64.mul;
  s_div := B64.div;
  s_sqrt := B64.sqrt
}.

(** *** Exact arithmetic *)
#[export] Instance real_scalar : Scalar R := {
  s_zero := 0%R;
  s_add := Rplus;
  s_mul := Rmult;
  s_div := Rdiv;
  s_sqrt := R_sqrt.sqrt
}.

(** ** numpy *)
Section Numpy.
Context {F : Type} `{Scalar F}.

(** The accumulation loop of [np.dot] on two one-dimensional arrays:
    [tmp = 0; for i: tmp += a[i] * b[i]], summed from left to right as
    numpy's own loop does.  The sums of the scenarios below are exact, so
    they are the same in any order of summation. *)
Definition dot_loop (a b : list F) : F :=
  fold_left (fun tmp xy => s_add tmp (s_mul (fst xy) (snd xy)))
            (combine a b) s_zero.

(** [np.dot(a, b)] on one-dimensional arrays: shapes that are not aligned
    raise [ValueError] before anything is computed. *)
Definition np_dot (a b : list F) : result F :=
  if Nat.eqb (length a) (length b) then Ok (dot_loop a b)
  else Raise ValueError.

(** [np.linalg.norm(x)] on a real one-dimensional array:
    [sqrt(x.dot(x))]. *)
Definition np_linalg_norm (x : list F) : F :=
  s_sqrt (dot_loop x x).

(** [cosine_similarity(a, b)]:
    [np.dot(a, b) / (np.linalg.norm(a) * np.linalg.norm(b))]. *)
Definition cosine_similarity (a b : list F) : result F :=
  d <- np_dot a b ;;
  Ok (s_div d (s_mul (np_linalg_norm a) (np_linalg_norm b))).

End Numpy.

(** ** Python lists *)
Section PyList.
Context {A : Type}.

(** [l[:stop]]: a negative [stop] counts from the end, and the bound is
    clamped to the list. *)
Definition slice_stop (l : list A) (stop : Z) : list A :=
  let n := Z.of_nat (length l) in
  let stop' := if (stop <? 0)%Z then Z.max 0 (stop + n) else Z.min stop n in
  firstn (Z.to_nat stop') l.

(** *** [list.sort]

    CPython sorts with comparisons [<] only.  A list shorter than 64
    elements is one run: [count_run] finds the run the list starts with
    (ascending, or strictly descending and then reversed in place) and
    [binarysort] inserts the remaining elements one by one at the place a
    binary search gives.  Longer lists are cut into such runs, which are
    merged; the model sorts them as one run too, which gives the same list
    whenever [<] orders the keys (a stable sort has one possible result). *)
Variable lt : A -> A -> bool.

Fixpoint run_ascending (prev : A) (l : list A) : nat :=
  match l with
  | [] => 0
  | x :: l' => if lt x prev then 0 else S (run_ascending x l')
  end.

Fixpoint run_descending (prev : A) (l : list A) : nat :=
  match l with
  | [] => 0
  | x :: l' => if lt x prev then S (run_descending x l') else 0
  end.

(** Length of the run at the head of [l], and whether it descends. *)
Definition count_run (l : list A) : nat * bool :=
  match l with
  | [] => (0, false)
  | [_] => (1, false)
  | x :: ((y :: l') as tl) =>
      if lt y x then (S (S (run_descending y l')), true)
      else (S (S (run_ascending y l')), false)
  end.

(** The binary search of [binarysort]: [l] and [r] close in on the slot of
    [pivot] in [a]; the interval shrinks at every step, so [r - l] steps
    are enough. *)
Fixpoint bisect (fuel : nat) (a : list A) (pivot : A) (l r : nat) : nat :=
  match fuel with
  | O => l
  | S fuel' =>
      if Nat.ltb l r then
        let p := l + Nat.div2 (r - l) in
        if lt pivot (nth p a pivot) then bisect fuel' a pivot l p
        else bisect fuel' a pivot (S p) r
      else l
  end.

Definition insert_at (l : nat) (pivot : A) (a : list A) : list A :=
  firstn l a ++ pivot :: skipn l a.

(** [a] is the sorted front of the slice, [rest] what is still to insert. *)
Fixpoint binarysort (a rest : list A) : list A :=
  match rest with
  | [] => a
  | pivot :: rest' =>
      binarysort (insert_at (bisect (length a) a pivot 0 (length a)) pivot a)
                 rest'
  end.

Definition sort_ascending (l : list A) : list A :=
  let '(n, descending) := count_run l in
  let run := firstn n l in
  binarysort (if descending then rev run else run) (skipn n l).

(** [l.sort(reverse=...)]: a reverse sort reverses the list, sorts it
    forward and reverses the result. *)
Definition list_sort (reverse : bool) (l : list A) : list A :=
  if reverse then rev (sort_ascending (rev l)) else sort_ascending l.

End PyList.

(** ** The ranker *)

(** One record of the embeddings store: [item["file_path"]] and
    [item["embedding"]], the latter as [np.array] makes it: a
    one-dimensional array of binary64.  The query vector is taken in
    binary64 as well. *)
Record item : Type := {
  file_path : string;
  embedding : list B64.t
}.

Definition scored : Type := (string * B64.t)%type.

(** The key of the sort, [lambda x: x[1]], compared with [<]. *)
Definition score_lt (x y : scored) : bool := B64.ltb (snd x) (snd y).

(** The scoring loop of [find_relevant_files]; [scores] is the list built so
    far. *)
Fixpoint score_loop (query_embedding : list B64.t) (embeddings : list item)
         (scores : list scored) : result (list scored) :=
  match embeddings with
  | [] => Ok scores
  | it :: rest =>
      score <- cosine_similarity query_embedding (embedding it) ;;
      score_loop query_embedding rest (scores ++ [(file_path it, score)])
  end.

Definition find_relevant_files (query_embedding : list B64.t)
           (embeddings : list item) (limit : Z) : result (list scored) :=
  scores <- score_loop query_embedding embeddings [] ;;
  let scores := list_sort score_lt true scores in
  Ok (slice_stop scores limit).

(** ** The embedder's query loader *)

(** [s.endswith(suffix)]. *)
Definition endswith (s suffix : string) : bool :=
  let n := String.length s in
  let m := String.length suffix in
  if Nat.leb m n then String.eqb (substring (n - m) m s) suffix else false.

(** What the embedder reaches outside the process.

    [files path] is what [open(path, 'r')] followed by [read()] gives: the
    text of the file, or the exception either of them raises.

    [tokenizers name] is what [CodeGenTokenizer.from_pretrained(name)] gives:
    the exception it raises, or a tokenizer, which is a function from the
    text to what the call [tokenizer(text, return_tensors="pt",
    truncation=True, max_length=512, padding="max_length")] gives: the token
    ids, or the exception the call raises.

    [networks name] is what [CodeGenForCausalLM.from_pretrained(name,
    output_hidden_states=True)], [eval()] and [to(device)] give: the
    exception one of them raises, or a network, which is a function from the
    token ids to what the forward pass and the mean of the last hidden layer
    give: the embedding, or the exception raised on the way.  The components
    of the embedding are single precision numbers; each of them is a binary64
    number. *)
Record world : Type := {
  files : string -> result string;
  tokenizers : string -> result (string -> result (list Z));
  networks : string -> result (list Z -> result (list B64.t))
}.

Inductive event : Type :=
| Opened (path : string)
| LoadedTokenizer (model_name : string)
| LoadedModel (model_name : string).

(** Computations that read the world, may raise, and leave the trace of what
    they touched. *)
Definition IO (A : Type) : Type := world -> result A * list event.

Definition io_ret {A : Type} (a : A) : IO A := fun _ => (Ok a, []).

Definition io_bind {A B : Type} (m : IO A) (k : A -> IO B) : IO B :=
  fun w =>
    match m w with
    | (Ok a, t) => let '(r, t') := k a w in (r, t ++ t')
    | (Raise e, t) => (Raise e, t)
    end.

Notation "x <~ m ;; k" := (io_bind m (fun x => k))
  (at level 61, m at next level, right associativity).

(** A step that touches nothing outside the process. *)
Definition io_lift {A : Type} (r : result A) : IO A := fun _ => (r, []).

(** [with open(path, 'r') as f: f.read()]. *)
Definition open_read (path : string) : IO string :=
  fun w => (files w path, [Opened path]).

(** [CodeGenTokenizer.from_pretrained(model_name)]. *)
Definition load_tokenizer (model_name : string)
  : IO (string -> result (list Z)) :=
  fun w => (tokenizers w model_name, [LoadedTokenizer model_name]).

(** [CodeGenForCausalLM.from_pretrained(model_name, ...)], [model.eval()] and
    [model.to(device)]. *)
Definition load_model (model_name : string)
  : IO (list Z -> result (list B64.t)) :=
  fun w => (networks w model_name, [LoadedModel model_name]).

(** The function from its comment [# Load model and tokenizer] on: what is
    done with the text of the query once it is known. *)
Definition embed_text (query_text model_name : string) : IO (list B64.t) :=
  tokenizer <~ load_tokenizer model_name ;;
  model <~ load_model model_name ;;
  inputs <~ io_lift (tokenizer query_text) ;;
  io_lift (model inputs).

Definition generate_query_embedding (query_text model_name : string)
  : IO (list B64.t) :=
  query_text <~ (if endswith query_text ".txt" then open_read query_text
                 else io_ret query_text) ;;
  embed_text query_text model_name.

(** ** Scenarios *)
Open Scope string_scope.

Definition vec2 (x y : Z) : list B64.t := [B64.of_Z x; B64.of_Z y].

Definition record (path : string) (v : list B64.t) : item :=
  {| file_path := path; embedding := v |}.

(** The corpus and query of the ranking scenario of the specification. *)
Definition query_10 : list B64.t := vec2 1 0.

Definition corpus_abc : list item :=
  [ record "a.py" (vec2 1 0);
    record "b.py" (vec2 0 1);
    record "c.py" [B64.of_decimal 9 1; B64.of_decimal 1 1] ].

(** A corpus with a zero vector. *)
Definition corpus_zero : list item :=
  [ record "z.py" (vec2 0 0); record "a.py" (vec2 1 0) ].

(** A corpus with a zero vector and two records of score [0.0]. *)
Definition corpus_ties : list item :=
  [ record "t2.py" (vec2 0 1);
    record "m.py" (vec2 (-3) 4);
    record "t1.py" (vec2 0 1);
    record "z.py" (vec2 0 0);
    record "a.py" (vec2 1 0);
    record "n1.py" (vec2 (-1) 0);
    record "n2.py" (vec2 (-1) 0) ].

(** A corpus whose second record has the wrong dimension. *)
Definition corpus_ragged : list item :=
  [ record "a.py" (vec2 1 0);
    record "short.py" [B64.of_Z 1];
    record "c.py" (vec2 0 1) ].



(** A world with one readable file, one file that is not text, and one
    checkpoint: its tokenizer gives the length of the text as the one token,
    its network turns every token into a component. *)
Definition world_notes : world :=
  {| files := fun path =>
       if String.eqb path "notes.txt" then Ok "def parse(x):"
       else if String.eqb path "blob.txt" then Raise ValueError
       else Raise OSError;
     tokenizers := fun name =>
       if String.eqb name "checkpoints/codegen"
       then Ok (fun text => Ok [Z.of_nat (String.length text)])
       else Raise OSError;
     networks := fun name =>
       if String.eqb name "checkpoints/codegen"
       then Ok (fun inputs => Ok (map B64.of_Z inputs))
       else Raise OSError |}.

(** ** Vocabulary of the statements *)

(** The value a call of [cosine_similarity] returns when it returns. *)
Definition cosine_value {F : Type} `{Scalar F} (a b : list F) : F :=
  s_div (dot_loop a b) (s_mul (np_linalg_norm a) (np_linalg_norm b)).

(** The entry the scoring loop appends for a record. *)
Definition score_of (q : list B64.t) (it : item) : scored :=
  (file_path it, cosine_value q (embedding it)).

(** The record has the dimension of the query. *)
Definition aligned (q : list B64.t) (it : item) : Prop :=
  List.length (embedding it) = List.length q.

(** The computed magnitude of the vector is zero. *)
Definition zero_magnitude (v : list B64.t) : Prop :=
  B64.is_zero (np_linalg_norm v) = true.

(** Every component of the vector is zero. *)
Definition all_zero (v : list B64.t) : Prop :=
  Forall (fun x => B64.is_zero x = true) v.

(** NaN or an infinity. *)
Definition not_finite (x : B64.t) : bool := B64.is_nan x || B64.is_inf x.

(** A zero or NaN. *)
Definition zero_or_nan (x : B64.t) : bool := B64.is_zero x || B64.is_nan x.

(** No entry of the list has a NaN score. *)
Definition nan_free (scores : list scored) : Prop :=
  Forall (fun x => B64.is_nan (snd x) = false) scores.

(** The entry has the score [k], as [==] sees it. *)
Definition same_score (k : B64.t) (x : scored) : bool := B64.eqb (snd x) k.

(** The score of the first entry is greater than or equal to the second's. *)
Definition score_ge (x y : scored) : Prop := B64.leb (snd y) (snd x) = true.

(** The orders a sort by [<] leaves behind, and the ties it must keep. *)
Section Order.
Context {A : Type} (lt : A -> A -> bool).

(** [y] is not less than [x]: the order of an ascending list. *)
Definition not_after (x y : A) : Prop := lt y x = false.

(** [x] is not less than [y]: the order of a descending list. *)
Definition not_before (x y : A) : Prop := lt x y = false.

(** [y] is less than [x]: the order of a strictly descending run. *)
Definition above (x y : A) : Prop := lt y x = true.

(** Neither of [k] and [x] is less than the other. *)
Definition tied (k x : A) : bool := negb (lt k x) && negb (lt x k).

End Order.

(** The place of a float in the order of [<]: the sign class first, then the
    exponent and the mantissa, both counted downwards on the negative side.
    NaN has no place; it is given that of the zeros. *)
Definition order_key (x : B64.t) : Z * Z * Z :=
  match x with
  | S754_nan => (0, 0, 0)
  | S754_zero _ => (0, 0, 0)
  | S754_infinity true => (-2, 0, 0)
  | S754_infinity false => (2, 0, 0)
  | S754_finite true m e => (-1, - e, Zneg m)
  | S754_finite false m e => (1, e, Zpos m)
  end%Z.

Definition key_lt (a b : Z * Z * Z) : Prop :=
  let '(a1, a2, a3) := a in
  let '(b1, b2, b3) := b in
  (a1 < b1 \/ (a1 = b1 /\ (a2 < b2 \/ (a2 = b2 /\ a3 < b3))))%Z.

(** ** The store as [json.load] returns it

    A record of the store is a dict.  The ranker subscripts it twice,
    [item["embedding"]] and [item["file_path"]], and either key may be
    missing; a key that is there holds a value of the expected type. *)
Record json_item : Type := {
  json_file_path : option string;
  json_embedding : option (list B64.t)
}.

(** How a call ends when [KeyError] is among the exceptions. *)
Inductive outcome (A : Type) : Type :=
| Returned (a : A)
| Raised (e : exn)
| KeyError (key : string).

Arguments Returned {A} a.
Arguments Raised {A} e.
Arguments KeyError {A} key.

(** The scoring loop on dicts.  [item["embedding"]] is read first, then the
    score is computed, then [item["file_path"]] is read for the tuple that is
    appended. *)
Fixpoint score_loop_json (query_embedding : list B64.t)
         (embeddings : list json_item) (scores : list scored)
  : outcome (list scored) :=
  match embeddings with
  | [] => Returned scores
  | it :: rest =>
      match json_embedding it with
      | None => KeyError "embedding"
      | Some file_embedding =>
          match cosine_similarity query_embedding file_embedding with
          | Raise e => Raised e
          | Ok score =>
              match json_file_path it with
              | None => KeyError "file_path"
              | Some path =>
                  score_loop_json query_embedding rest
                                  (scores ++ [(path, score)])%list
              end
          end
      end
  end.

(** [find_relevant_files] on the dicts of the store. *)
Definition find_relevant_files_json (query_embedding : list B64.t)
           (embeddings : list json_item) (limit : Z) : outcome (list scored) :=
  match score_loop_json query_embedding embeddings [] with
  | Returned scores =>
      Returned (slice_stop (list_sort score_lt true scores) limit)
  | Raised e => Raised e
  | KeyError key => KeyError key
  end.

(** The dict of a record that has both keys. *)
Definition to_json (it : item) : json_item :=
  {| json_file_path := Some (file_path it);
     json_embedding := Some (embedding it) |}.

(** ** The real number of a binary64 datum *)

Definition bpow (e : Z) : R := powerRZ 2 e.

Definition sign_of (s : bool) : R := if s then (-1)%R else 1%R.






(** ** Vocabulary of the error analysis *)





(** * Properties *)

(** ** Strings *)

Lemma substring_all (s : string) : substring 0 (String.length s) s = s.
Proof.
  induction s as [|c s IH]; simpl; [reflexivity | now rewrite IH].
Qed.

Lemma substring_append_skip (p s : string) (m : nat) :
  substring (String.length p) m (p ++ s) = substring 0 m s.
Proof.
  induction p as [|c p IH]; simpl; [reflexivity | exact IH].
Qed.

Lemma substring_split (s : string) (k : nat) :
  k <= String.length s ->
  s = substring 0 k s ++ substring k (String.length s - k) s.
Proof.
  revert k; induction s as [|c s IH]; intros k Hk; simpl in *.
  - destruct k; reflexivity.
  - destruct k as [|k]; simpl.
    + now rewrite substring_all.
    + f_equal. apply IH. lia.
Qed.

Lemma length_append (p s : string) :
  String.length (p ++ s) = String.length p + String.length s.
Proof.
  induction p as [|c p IH]; simpl; [reflexivity | now rewrite IH].
Qed.

(** [endswith] is the suffix relation. *)
Lemma endswith_spec (s suffix : string) :
  endswith s suffix = true <-> exists p, s = p ++ suffix.
Proof.
  unfold endswith. split.
  - destruct (Nat.leb_spec (String.length suffix) (String.length s)) as [Hle|Hlt];
      [|discriminate].
    intros Heq. apply String.eqb_eq in Heq.
    exists (substring 0 (String.length s - String.length suffix) s).
    rewrite (substring_split s (String.length s - String.length suffix)) at 1
      by lia.
    replace (String.length s - (String.length s - String.length suffix))
      with (String.length suffix) by lia.
    now rewrite Heq.
  - intros [p ->]. rewrite length_append.
    destruct (Nat.leb_spec (String.length suffix)
                           (String.length p + String.length suffix)); [|lia].
    replace (String.length p + String.length suffix - String.length suffix)
      with (String.length p) by lia.
    rewrite substring_append_skip, substring_all. apply String.eqb_refl.
Qed.

Open Scope list_scope.

(** ** The query loader *)

Lemma embed_text_trace (w : world) (text model_name : string) :
  Forall (fun ev => ev = LoadedTokenizer model_name
                    \/ ev = LoadedModel model_name)
         (snd (embed_text text model_name w)).
Proof.
  unfold embed_text, io_bind, load_tokenizer, load_model, io_lift.
  destruct (tokenizers w model_name) as [tokenizer|e]; simpl;
    [|auto].
  destruct (networks w model_name) as [model|e]; simpl; [|auto].
  destruct (tokenizer text) as [inputs|e]; simpl; auto.
Qed.

(** C10: a query is a file reference exactly when it ends with [.txt]: then
    the file at that path is opened before anything else; when it cannot be
    read the call ends there, with the exception the read raised, and
    otherwise the call goes on with the contents of the file as the text to
    embed.  Any other query is the text to embed as it is.  Embedding a text
    opens no file, so a query that does not end with [.txt] never reaches
    the disk for a query file. *)
Theorem query_file_reference (w : world) (query_text model_name : string) :
  ((exists p, query_text = (p ++ ".txt")%string) ->
   generate_query_embedding query_text model_name w =
     match files w query_text with
     | Ok text =>
         (fst (embed_text text model_name w),
          Opened query_text :: snd (embed_text text model_name w))
     | Raise e => (Raise e, [Opened query_text])
     end)
  /\ (~ (exists p, query_text = (p ++ ".txt")%string) ->
      generate_query_embedding query_text model_name w
      = embed_text query_text model_name w
      /\ forall path,
           ~ In (Opened path)
                (snd (generate_query_embedding query_text model_name w))).
Proof.
  assert (Hno : forall text path,
             ~ In (Opened path) (snd (embed_text text model_name w))).
  { intros text path Hin.
    pose proof (embed_text_trace w text model_name) as Htrace.
    rewrite Forall_forall in Htrace.
    destruct (Htrace _ Hin); discriminate. }
  split; intros Hsuffix.
  - apply endswith_spec in Hsuffix.
    unfold generate_query_embedding, io_bind. rewrite Hsuffix.
    unfold open_read.
    destruct (files w query_text) as [text|e]; [|reflexivity].
    destruct (embed_text text model_name w); reflexivity.
  - assert (Heq : generate_query_embedding query_text model_name w
                  = embed_text query_text model_name w).
    { unfold generate_query_embedding, io_bind.
      destruct (endswith query_text ".txt") eqn:E.
      - exfalso. apply Hsuffix, endswith_spec, E.
      - unfold io_ret.
        destruct (embed_text query_text model_name w); reflexivity. }
    split; [exact Heq|]. intros path. rewrite Heq. apply Hno.
Qed.

Lemma query_file_reference_witness :
  generate_query_embedding "notes.txt" "checkpoints/codegen" world_notes
  = (Ok [B64.of_Z 13],
     [Opened "notes.txt"; LoadedTokenizer "checkpoints/codegen";
      LoadedModel "checkpoints/codegen"])
  /\ generate_query_embedding "blob.txt" "checkpoints/codegen" world_notes
     = (Raise ValueError, [Opened "blob.txt"])
  /\ generate_query_embedding "notes.TXT" "checkpoints/codegen" world_notes
     = (Ok [B64.of_Z 9],
        [LoadedTokenizer "checkpoints/codegen";
         LoadedModel "checkpoints/codegen"]).
Proof.
  split; [|split].
  - refine (proj1 (query_file_reference world_notes "notes.txt"
                     "checkpoints/codegen") _).
    exists "notes". reflexivity.
  - refine (proj1 (query_file_reference world_notes "blob.txt"
                     "checkpoints/codegen") _).
    exists "blob". reflexivity.
  - refine (proj1 (proj2 (query_file_reference world_notes "notes.TXT"
                            "checkpoints/codegen") _)).
    intros Hp. apply endswith_spec in Hp. vm_compute in Hp. discriminate Hp.
Defined.

(** ** Scoring *)

Lemma cosine_similarity_aligned {F : Type} `{Scalar F} (a b : list F) :
  length a = length b -> cosine_similarity a b = Ok (cosine_value a b).
Proof.
  intros Hlen. unfold cosine_similarity, np_dot.
  rewrite (proj2 (Nat.eqb_eq _ _) Hlen). reflexivity.
Qed.

Lemma cosine_similarity_not_aligned {F : Type} `{Scalar F} (a b : list F) :
  length a <> length b -> cosine_similarity a b = Raise ValueError.
Proof.
  intros Hlen. unfold cosine_similarity, np_dot.
  rewrite (proj2 (Nat.eqb_neq _ _) Hlen). reflexivity.
Qed.

Lemma score_loop_aligned (q : list B64.t) (embeddings : list item) :
  Forall (aligned q) embeddings ->
  forall scores,
    score_loop q embeddings scores = Ok (scores ++ map (score_of q) embeddings).
Proof.
  induction 1 as [|it rest Hit _ IH]; intros scores; simpl.
  - now rewrite app_nil_r.
  - rewrite cosine_similarity_aligned by (symmetry; exact Hit). simpl.
    rewrite IH, <- app_assoc. reflexivity.
Qed.

Lemma score_loop_not_aligned (q : list B64.t) (embeddings : list item)
      (it : item) :
  In it embeddings -> ~ aligned q it ->
  forall scores, score_loop q embeddings scores = Raise ValueError.
Proof.
  induction embeddings as [|it0 rest IH]; intros Hin Hbad scores; simpl.
  - destruct Hin.
  - destruct (Nat.eq_dec (length q) (length (embedding it0))) as [Heq|Hne].
    + rewrite cosine_similarity_aligned by exact Heq. simpl.
      destruct Hin as [->|Hin].
      * exfalso. apply Hbad. symmetry. exact Heq.
      * now apply IH.
    + now rewrite cosine_similarity_not_aligned.
Qed.

(** What [find_relevant_files] returns on a corpus of the query's
    dimension. *)
Lemma find_relevant_files_aligned (q : list B64.t) (embeddings : list item)
      (limit : Z) :
  Forall (aligned q) embeddings ->
  find_relevant_files q embeddings limit =
    Ok (slice_stop (list_sort score_lt true (map (score_of q) embeddings))
                   limit).
Proof.
  intros Hall. unfold find_relevant_files.
  now rewrite score_loop_aligned.
Qed.

(** C5: a corpus record whose vector has not the length of the query vector
    gets no score: [cosine_similarity] raises on it, and
    [find_relevant_files] raises with it and returns nothing. *)
Theorem dimension_mismatch_aborts (q : list B64.t) (embeddings : list item)
        (limit : Z) (it : item) :
  In it embeddings ->
  length (embedding it) <> length q ->
  cosine_similarity q (embedding it) = Raise ValueError
  /\ find_relevant_files q embeddings limit = Raise ValueError.
Proof.
  intros Hin Hlen. split.
  - apply cosine_similarity_not_aligned. congruence.
  - unfold find_relevant_files.
    now rewrite (score_loop_not_aligned q embeddings it Hin Hlen).
Qed.

Lemma dimension_mismatch_aborts_witness :
  cosine_similarity query_10 [B64.of_Z 1] = Raise ValueError
  /\ find_relevant_files query_10 corpus_ragged 5 = Raise ValueError.
Proof.
  apply (dimension_mismatch_aborts query_10 corpus_ragged 5
           (record "short.py" [B64.of_Z 1])).
  - simpl. right. left. reflexivity.
  - simpl. lia.
Defined.

(** C2: the ranking scenario of the specification. *)
Theorem ranking_scenario :
  exists s : B64.t,
    find_relevant_files query_10 corpus_abc 2
    = Ok [("a.py", B64.of_Z 1); ("c.py", s)]
    /\ B64.leb (B64.of_decimal 9935 4) s = true
    /\ B64.ltb s (B64.of_decimal 9945 4) = true.
Proof.
  exists (S754_finite false 8952108834251414 (-53)).
  repeat split; vm_compute; reflexivity.
Qed.

(** ** Zeros and NaN in binary64 *)

Ltac b64_cases :=
  unfold zero_or_nan, not_finite, s_add, s_mul, s_div, s_sqrt, b64_scalar,
    B64.add, B64.mul, B64.div, B64.sqrt, B64.nan, B64.is_zero, B64.is_nan,
    B64.is_inf, SFadd, SFmul, SFdiv, SFsqrt;
  simpl; congruence.

Lemma is_zero_zero_or_nan (x : B64.t) :
  B64.is_zero x = true -> zero_or_nan x = true.
Proof. destruct x; b64_cases. Qed.

Lemma zero_or_nan_mul_l (x y : B64.t) :
  zero_or_nan x = true -> zero_or_nan (s_mul x y) = true.
Proof. destruct x, y; b64_cases. Qed.

Lemma zero_or_nan_mul_r (x y : B64.t) :
  zero_or_nan y = true -> zero_or_nan (s_mul x y) = true.
Proof. destruct x, y; b64_cases. Qed.

Lemma zero_or_nan_add (x y : B64.t) :
  zero_or_nan x = true -> zero_or_nan y = true ->
  zero_or_nan (s_add x y) = true.
Proof.
  destruct x as [[]| | |], y as [[]| | |]; b64_cases.
Qed.

Lemma zero_or_nan_sqrt (x : B64.t) :
  zero_or_nan x = true -> zero_or_nan (s_sqrt x) = true.
Proof. destruct x; b64_cases. Qed.

Lemma div_zero_or_nan_not_finite (x y : B64.t) :
  zero_or_nan y = true -> not_finite (s_div x y) = true.
Proof. destruct x, y; b64_cases. Qed.

Lemma div_zero_or_nan_nan (x y : B64.t) :
  zero_or_nan x = true -> zero_or_nan y = true -> s_div x y = B64.nan.
Proof. destruct x, y; b64_cases. Qed.

Lemma dot_fold_zero_or_nan (l : list (B64.t * B64.t)) :
  Forall (fun xy => zero_or_nan (fst xy) = true
                    \/ zero_or_nan (snd xy) = true) l ->
  forall acc, zero_or_nan acc = true ->
    zero_or_nan
      (fold_left (fun tmp xy => s_add tmp (s_mul (fst xy) (snd xy))) l acc)
    = true.
Proof.
  induction 1 as [|xy l Hxy _ IH]; intros acc Hacc; simpl; [exact Hacc|].
  apply IH, zero_or_nan_add; [exact Hacc|].
  destruct Hxy; [now apply zero_or_nan_mul_l | now apply zero_or_nan_mul_r].
Qed.

Lemma Forall_combine_l {A B : Type} (P : A -> Prop) (a : list A) :
  Forall P a -> forall b : list B, Forall (fun xy => P (fst xy)) (combine a b).
Proof.
  induction 1 as [|x a Hx _ IH]; intros [|y b]; simpl; constructor; auto.
Qed.

Lemma Forall_combine_r {A B : Type} (P : B -> Prop) (b : list B) :
  Forall P b -> forall a : list A, Forall (fun xy => P (snd xy)) (combine a b).
Proof.
  induction 1 as [|y b Hy _ IH]; intros [|x a]; simpl; constructor; auto.
Qed.

Lemma dot_all_zero_l (a b : list B64.t) :
  all_zero a -> zero_or_nan (dot_loop a b) = true.
Proof.
  intros Ha. apply dot_fold_zero_or_nan; [|reflexivity].
  eapply Forall_impl; [|apply (Forall_combine_l _ a Ha b)].
  intros xy Hz. left. now apply is_zero_zero_or_nan.
Qed.

Lemma dot_all_zero_r (a b : list B64.t) :
  all_zero b -> zero_or_nan (dot_loop a b) = true.
Proof.
  intros Hb. apply dot_fold_zero_or_nan; [|reflexivity].
  eapply Forall_impl; [|apply (Forall_combine_r _ b Hb a)].
  intros xy Hz. right. now apply is_zero_zero_or_nan.
Qed.

(** A vector of zero magnitude on either side makes the score NaN or an
    infinity. *)
Lemma cosine_value_zero_magnitude (a b : list B64.t) :
  zero_magnitude a \/ zero_magnitude b ->
  not_finite (cosine_value a b) = true.
Proof.
  intros Hz. apply div_zero_or_nan_not_finite.
  destruct Hz as [Hz|Hz];
    [apply zero_or_nan_mul_l | apply zero_or_nan_mul_r];
    now apply is_zero_zero_or_nan.
Qed.

(** A zero vector on either side makes the score NaN. *)
Lemma cosine_value_all_zero (a b : list B64.t) :
  all_zero a \/ all_zero b -> cosine_value a b = B64.nan.
Proof.
  intros Hz. apply div_zero_or_nan_nan.
  - destruct Hz; [now apply dot_all_zero_l | now apply dot_all_zero_r].
  - destruct Hz as [Hz|Hz];
      [apply zero_or_nan_mul_l | apply zero_or_nan_mul_r];
      apply zero_or_nan_sqrt; [now apply dot_all_zero_l | now apply dot_all_zero_r].
Qed.

(** ** The sort rearranges *)
Section SortPermutation.
Context {A : Type} (lt : A -> A -> bool).

Lemma insert_at_permutation (k : nat) (pivot : A) (a : list A) :
  Permutation (insert_at k pivot a) (pivot :: a).
Proof.
  unfold insert_at. symmetry.
  rewrite <- (firstn_skipn k a) at 1. apply Permutation_middle.
Qed.

Lemma binarysort_permutation (rest a : list A) :
  Permutation (binarysort lt a rest) (a ++ rest).
Proof.
  revert a; induction rest as [|pivot rest IH]; intros a; simpl.
  - now rewrite app_nil_r.
  - rewrite IH, insert_at_permutation.
    apply (Permutation_middle a rest pivot).
Qed.

Lemma sort_ascending_permutation (l : list A) :
  Permutation (sort_ascending lt l) l.
Proof.
  unfold sort_ascending. destruct (count_run lt l) as [n descending].
  rewrite binarysort_permutation.
  transitivity (firstn n l ++ skipn n l);
    [|now rewrite firstn_skipn].
  apply Permutation_app_tail.
  destruct descending; [symmetry; apply Permutation_rev | reflexivity].
Qed.

Lemma list_sort_permutation (reverse : bool) (l : list A) :
  Permutation (list_sort lt reverse l) l.
Proof.
  unfold list_sort. destruct reverse.
  - rewrite <- Permutation_rev, sort_ascending_permutation.
    symmetry. apply Permutation_rev.
  - apply sort_ascending_permutation.
Qed.

End SortPermutation.

(** ** Slices *)

Lemma slice_stop_length {A : Type} (l : list A) (stop : Z) :
  (0 <= stop)%Z ->
  Z.of_nat (length (slice_stop l stop)) = Z.min stop (Z.of_nat (length l)).
Proof.
  intros Hstop. unfold slice_stop.
  destruct (Z.ltb_spec stop 0) as [Hneg|_]; [lia|].
  rewrite length_firstn. lia.
Qed.

Lemma slice_stop_all {A : Type} (l : list A) (stop : Z) :
  (Z.of_nat (length l) <= stop)%Z -> slice_stop l stop = l.
Proof.
  intros Hstop. unfold slice_stop.
  destruct (Z.ltb_spec stop 0) as [Hneg|_]; [lia|].
  apply firstn_all2. lia.
Qed.

Lemma slice_stop_prefix {A : Type} (l : list A) (stop : Z) :
  exists rest, l = slice_stop l stop ++ rest.
Proof.
  unfold slice_stop. eexists. symmetry. apply firstn_skipn.
Qed.

(** ** The ranker *)

(** C1 (as the code has it): a record is neither excluded nor refused when
    the query or its vector has zero magnitude.  The call of
    [cosine_similarity] returns a score that is NaN or an infinity (NaN when
    one of the two vectors is all zeros), the scoring loop goes on, and the
    entry is in the list the sort leaves, which has an entry for every
    record. *)
Theorem zero_magnitude_score_is_kept (q : list B64.t) (embeddings : list item)
        (limit : Z) (it : item) :
  Forall (aligned q) embeddings ->
  In it embeddings ->
  zero_magnitude q \/ zero_magnitude (embedding it) ->
  let s := cosine_value q (embedding it) in
  cosine_similarity q (embedding it) = Ok s
  /\ not_finite s = true
  /\ (all_zero q \/ all_zero (embedding it) -> s = B64.nan)
  /\ exists sorted : list scored,
       find_relevant_files q embeddings limit = Ok (slice_stop sorted limit)
       /\ In (file_path it, s) sorted
       /\ length sorted = length embeddings.
Proof.
  intros Hall Hin Hzero s. subst s.
  assert (Hit : aligned q it) by (rewrite Forall_forall in Hall; auto).
  split; [apply cosine_similarity_aligned; symmetry; exact Hit|].
  split; [now apply cosine_value_zero_magnitude|].
  split; [apply cosine_value_all_zero|].
  exists (list_sort score_lt true (map (score_of q) embeddings)).
  split; [now apply find_relevant_files_aligned|].
  split.
  - eapply Permutation_in;
      [symmetry; apply list_sort_permutation|].
    apply (in_map (score_of q) _ _ Hin).
  - rewrite (Permutation_length (list_sort_permutation score_lt true _)).
    apply length_map.
Qed.

Lemma zero_magnitude_score_is_kept_witness :
  cosine_similarity query_10 (vec2 0 0) = Ok B64.nan
  /\ In ("z.py", B64.nan)
        (list_sort score_lt true (map (score_of query_10) corpus_zero)).
Proof.
  assert (Hall : Forall (aligned query_10) corpus_zero)
    by (repeat constructor).
  assert (Hin : In (record "z.py" (vec2 0 0)) corpus_zero)
    by (left; reflexivity).
  assert (Hzero : zero_magnitude query_10
                  \/ zero_magnitude (embedding (record "z.py" (vec2 0 0))))
    by (right; reflexivity).
  destruct (zero_magnitude_score_is_kept query_10 corpus_zero 2
              (record "z.py" (vec2 0 0)) Hall Hin Hzero)
    as (Hcos & _ & Hnan & _).
  split.
  - rewrite <- Hnan; [exact Hcos|].
    right. repeat constructor.
  - vm_compute. left. reflexivity.
Defined.

(** C1 (as stated) fails: with a zero vector in the corpus nothing is raised
    and nothing is left out; the record comes back with the score NaN, at the
    head of the ranking. *)
Lemma zero_vector_ranked_with_nan :
  find_relevant_files query_10 corpus_zero 2
  = Ok [("z.py", B64.nan); ("a.py", B64.of_Z 1)].
Proof. vm_compute. reflexivity. Qed.

(** C3 (as the code has it): on a corpus of the query's dimension and a limit
    that is not negative, [find_relevant_files] returns [min(limit, |corpus|)]
    entries; when the limit is at least the size of the corpus, it returns the
    whole sorted list, an entry for each record. *)
Theorem rank_length (q : list B64.t) (embeddings : list item) (limit : Z) :
  Forall (aligned q) embeddings ->
  (0 <= limit)%Z ->
  exists res : list scored,
    find_relevant_files q embeddings limit = Ok res
    /\ Z.of_nat (length res) = Z.min limit (Z.of_nat (length embeddings))
    /\ ((Z.of_nat (length embeddings) <= limit)%Z ->
        res = list_sort score_lt true (map (score_of q) embeddings)
        /\ Permutation res (map (score_of q) embeddings)).
Proof.
  intros Hall Hlimit.
  pose (sorted := list_sort score_lt true (map (score_of q) embeddings)).
  assert (Hlen : length sorted = length embeddings).
  { unfold sorted.
    rewrite (Permutation_length (list_sort_permutation score_lt true _)).
    apply length_map. }
  exists (slice_stop sorted limit).
  split; [now apply find_relevant_files_aligned|].
  split.
  - rewrite slice_stop_length by exact Hlimit. now rewrite Hlen.
  - intros Hbig. rewrite slice_stop_all by (rewrite Hlen; exact Hbig).
    split; [reflexivity | apply list_sort_permutation].
Qed.

Lemma rank_length_witness :
  exists res : list scored,
    find_relevant_files query_10 corpus_abc 10 = Ok res
    /\ Z.of_nat (length res) = 3%Z.
Proof.
  assert (Hall : Forall (aligned query_10) corpus_abc)
    by (repeat constructor).
  assert (Hlimit : (0 <= 10)%Z) by lia.
  destruct (rank_length query_10 corpus_abc 10 Hall Hlimit)
    as (res & Hres & Hlen & _).
  exists res. split; [exact Hres | exact Hlen].
Defined.

(** C3 (as stated) fails on a negative limit: [scores[:-1]] drops the last
    entry, and the two entries that come back are not [min(-1, 3)] many. *)
Lemma rank_length_negative_limit :
  exists res : list scored,
    find_relevant_files query_10 corpus_abc (-1) = Ok res
    /\ length res = 2
    /\ Z.of_nat (length res) <> Z.min (-1) (Z.of_nat (length corpus_abc)).
Proof.
  eexists. split; [vm_compute; reflexivity|].
  split; [reflexivity | vm_compute; discriminate].
Qed.

(** ** Sorted lists *)
Section Sorted.
Context {A : Type} (R : A -> A -> Prop).

Lemma StronglySorted_app (l1 l2 : list A) :
  StronglySorted R l1 -> StronglySorted R l2 ->
  Forall (fun x => Forall (R x) l2) l1 ->
  StronglySorted R (l1 ++ l2).
Proof.
  induction l1 as [|x l1 IH]; intros H1 H2 H12; simpl; [exact H2|].
  apply StronglySorted_inv in H1. destruct H1 as [H1 Hx].
  inversion H12 as [|? ? Hx2 H12']; subst.
  constructor; [now apply IH|].
  apply Forall_app. split; assumption.
Qed.

Lemma StronglySorted_app_inv (l1 l2 : list A) :
  StronglySorted R (l1 ++ l2) ->
  StronglySorted R l1 /\ StronglySorted R l2
  /\ Forall (fun x => Forall (R x) l2) l1.
Proof.
  induction l1 as [|x l1 IH]; simpl; intros H12.
  - repeat split; [constructor | exact H12 | constructor].
  - apply StronglySorted_inv in H12. destruct H12 as [H12 Hx].
    apply Forall_app in Hx. destruct Hx as [Hx1 Hx2].
    destruct (IH H12) as (H1 & H2 & Hcross).
    repeat split; [constructor | | constructor]; assumption.
Qed.

Lemma StronglySorted_nth (l : list A) (d : A) :
  StronglySorted R l ->
  forall i j, i < j -> j < length l -> R (nth i l d) (nth j l d).
Proof.
  induction 1 as [|x l Hl IH Hx]; intros i j Hij Hj; simpl in *; [lia|].
  destruct j as [|j]; [lia|]. destruct i as [|i].
  - rewrite Forall_forall in Hx. apply Hx, nth_In. lia.
  - apply IH; lia.
Qed.

End Sorted.

Lemma StronglySorted_rev {A : Type} (R : A -> A -> Prop) (l : list A) :
  StronglySorted R l -> StronglySorted (fun x y => R y x) (rev l).
Proof.
  induction 1 as [|x l Hl IH Hx]; simpl; [constructor|].
  apply StronglySorted_app; [exact IH | repeat constructor |].
  apply Forall_rev. eapply Forall_impl; [|exact Hx].
  intros y Hy. repeat constructor. exact Hy.
Qed.

Lemma StronglySorted_weaken {A : Type} (P : A -> Prop) (R R' : A -> A -> Prop)
      (l : list A) :
  (forall x y, P x -> P y -> R x y -> R' x y) ->
  Forall P l -> StronglySorted R l -> StronglySorted R' l.
Proof.
  intros Himp HP Hl. induction Hl as [|x l Hl IH Hx]; [constructor|].
  inversion HP as [|? ? Px Pl]; subst.
  constructor; [now apply IH|].
  rewrite Forall_forall in *. intros y Hy. apply Himp; auto.
Qed.

Lemma Forall_nth_default {A : Type} (P : A -> Prop) (l : list A) (d : A) :
  Forall P l -> forall i, i < length l -> P (nth i l d).
Proof.
  intros Hl i Hi. rewrite Forall_forall in Hl. apply Hl, nth_In, Hi.
Qed.

Lemma Forall_firstn_nth {A : Type} (Q : A -> Prop) (l : list A) (d : A)
      (k : nat) :
  k <= length l ->
  (forall i, i < k -> Q (nth i l d)) -> Forall Q (firstn k l).
Proof.
  intros Hk Hq. apply Forall_nth. intros i d' Hi.
  rewrite length_firstn in Hi.
  rewrite (nth_indep _ d' d) by (rewrite length_firstn; exact Hi).
  rewrite nth_firstn.
  destruct (Nat.ltb_spec i k); [apply Hq; lia | lia].
Qed.

Lemma Forall_skipn_nth {A : Type} (Q : A -> Prop) (l : list A) (d : A)
      (k : nat) :
  (forall i, k <= i -> i < length l -> Q (nth i l d)) -> Forall Q (skipn k l).
Proof.
  intros Hq. apply Forall_nth. intros i d' Hi.
  rewrite length_skipn in Hi.
  rewrite (nth_indep _ d' d) by (rewrite length_skipn; exact Hi).
  rewrite nth_skipn. apply Hq; lia.
Qed.

(** ** The sort on keys that [<] orders

    [P] holds of the elements [lt] orders: on them [lt] is asymmetric and
    whatever lies below [y] lies below [z] or has [z] below [y].  For the
    scores, [P] is not being NaN. *)
Section SortOrdered.
Context {A : Type} (lt : A -> A -> bool) (P : A -> Prop).

Hypothesis lt_asym :
  forall x y, P x -> P y -> lt x y = true -> lt y x = false.
Hypothesis lt_cotrans :
  forall x y z, P x -> P y -> P z ->
                lt x y = true -> lt x z = true \/ lt z y = true.

Lemma lt_trans (x y z : A) :
  P x -> P y -> P z -> lt x y = true -> lt y z = true -> lt x z = true.
Proof.
  intros Px Py Pz Hxy Hyz.
  destruct (lt_cotrans x y z Px Py Pz Hxy) as [H|H]; [exact H|].
  rewrite (lt_asym y z Py Pz Hyz) in H. discriminate.
Qed.

Lemma not_after_trans (x y z : A) :
  P x -> P y -> P z ->
  not_after lt x y -> not_after lt y z -> not_after lt x z.
Proof.
  unfold not_after. intros Px Py Pz Hxy Hyz.
  destruct (lt z x) eqn:Hzx; [|reflexivity].
  destruct (lt_cotrans z x y Pz Px Py Hzx); congruence.
Qed.

(** *** The binary search *)

Lemma bisect_spec (pivot : A) (a : list A) :
  P pivot -> Forall P a -> StronglySorted (not_after lt) a ->
  forall fuel l r,
    r - l <= fuel -> l <= r -> r <= length a ->
    (forall i, i < l -> lt pivot (nth i a pivot) = false) ->
    (forall i, r <= i -> i < length a -> lt pivot (nth i a pivot) = true) ->
    let k := bisect lt fuel a pivot l r in
    k <= length a
    /\ (forall i, i < k -> lt pivot (nth i a pivot) = false)
    /\ (forall i, k <= i -> i < length a -> lt pivot (nth i a pivot) = true).
Proof.
  intros Ppivot Pa Hsorted.
  assert (Pnth : forall i, i < length a -> P (nth i a pivot))
    by (apply Forall_nth_default; exact Pa).
  induction fuel as [|fuel IH]; intros l r Hfuel Hlr Hr Hlow Hhigh; simpl.
  - assert (l = r) by lia. subst r. repeat split; auto; lia.
  - destruct (Nat.ltb_spec l r) as [Hlt|Hge].
    + assert (Hp : l <= l + Nat.div2 (r - l) < r).
      { assert (Hhalf : Nat.div2 (r - l) < r - l)
          by (apply Nat.lt_div2; lia).
        revert Hhalf. generalize (Nat.div2 (r - l)). intros d Hd. lia. }
      set (p := l + Nat.div2 (r - l)) in *.
      destruct (lt pivot (nth p a pivot)) eqn:Hcmp.
      * apply IH; try lia; [exact Hlow|].
        intros i Hpi Hi.
        destruct (Nat.eq_dec i p) as [->|Hne]; [exact Hcmp|].
        assert (Hord : not_after lt (nth p a pivot) (nth i a pivot))
          by (apply StronglySorted_nth; [exact Hsorted | lia | lia]).
        unfold not_after in Hord.
        destruct (lt_cotrans pivot (nth p a pivot) (nth i a pivot))
          as [H|H]; auto; try (apply Pnth; lia).
        congruence.
      * apply IH; try lia; [|exact Hhigh].
        intros i Hi.
        destruct (Nat.eq_dec i p) as [->|Hne]; [exact Hcmp|].
        assert (Hord : not_after lt (nth i a pivot) (nth p a pivot))
          by (apply StronglySorted_nth; [exact Hsorted | lia | lia]).
        unfold not_after in Hord.
        destruct (lt pivot (nth i a pivot)) eqn:Hi'; [|reflexivity].
        destruct (lt_cotrans pivot (nth i a pivot) (nth p a pivot))
          as [H|H]; auto; try (apply Pnth; lia); congruence.
    + assert (l = r) by lia. subst r. repeat split; auto; lia.
Qed.

(** The slot the search gives splits the sorted front at [pivot]. *)
Lemma bisect_split (pivot : A) (a : list A) :
  P pivot -> Forall P a -> StronglySorted (not_after lt) a ->
  let k := bisect lt (length a) a pivot 0 (length a) in
  Forall (fun x => lt pivot x = false) (firstn k a)
  /\ Forall (fun x => lt pivot x = true) (skipn k a).
Proof.
  intros Ppivot Pa Hsorted k.
  destruct (bisect_spec pivot a Ppivot Pa Hsorted (length a) 0 (length a))
    as (Hk & Hlow & Hhigh); try lia.
  fold k in Hk, Hlow, Hhigh. split.
  - now apply (Forall_firstn_nth _ a pivot).
  - now apply (Forall_skipn_nth _ a pivot).
Qed.

Lemma insert_at_sorted (pivot : A) (a : list A) :
  P pivot -> Forall P a -> StronglySorted (not_after lt) a ->
  StronglySorted (not_after lt)
    (insert_at (bisect lt (length a) a pivot 0 (length a)) pivot a).
Proof.
  intros Ppivot Pa Hsorted.
  destruct (bisect_split pivot a Ppivot Pa Hsorted) as [Hlow Hhigh].
  set (k := bisect lt (length a) a pivot 0 (length a)) in *.
  unfold insert_at.
  assert (Hsplit := Hsorted). rewrite <- (firstn_skipn k a) in Hsplit.
  apply StronglySorted_app_inv in Hsplit.
  destruct Hsplit as (H1 & H2 & Hcross).
  assert (P2 : Forall P (skipn k a)).
  { rewrite <- (firstn_skipn k a) in Pa. now apply Forall_app in Pa. }
  apply StronglySorted_app; [exact H1 | constructor; [exact H2|] |].
  - rewrite Forall_forall in *. intros y Hy. unfold not_after.
    apply lt_asym; auto.
  - rewrite Forall_forall in *. intros x Hx.
    constructor; [apply Hlow, Hx | apply Hcross, Hx].
Qed.

Lemma tied_above_pivot (k pivot y : A) :
  P k -> P pivot -> P y ->
  tied lt k pivot = true -> lt pivot y = true -> tied lt k y = false.
Proof.
  unfold tied. intros Pk Ppivot Py Htied Hlt.
  apply andb_true_iff in Htied. destruct Htied as [_ Hpk].
  apply negb_true_iff in Hpk.
  destruct (lt_cotrans pivot y k Ppivot Py Pk Hlt) as [H|H];
    [congruence | now rewrite H].
Qed.

Lemma insert_at_stable (k pivot : A) (a : list A) :
  P k -> P pivot -> Forall P a -> StronglySorted (not_after lt) a ->
  filter (tied lt k)
         (insert_at (bisect lt (length a) a pivot 0 (length a)) pivot a)
  = filter (tied lt k) (a ++ [pivot]).
Proof.
  intros Pk Ppivot Pa Hsorted.
  destruct (bisect_split pivot a Ppivot Pa Hsorted) as [_ Hhigh].
  set (n := bisect lt (length a) a pivot 0 (length a)) in *.
  assert (P2 : Forall P (skipn n a)).
  { rewrite <- (firstn_skipn n a) in Pa. now apply Forall_app in Pa. }
  unfold insert_at.
  rewrite <- (firstn_skipn n a) at 3.
  rewrite !filter_app. simpl.
  destruct (tied lt k pivot) eqn:Htied; [|now rewrite app_nil_r].
  assert (Hnone : filter (tied lt k) (skipn n a) = []).
  { rewrite Forall_forall in Hhigh, P2.
    clear - Hhigh P2 Pk Ppivot Htied lt_cotrans.
    induction (skipn n a) as [|y l IH]; [reflexivity|]. simpl.
    rewrite (tied_above_pivot k pivot y); auto.
    - apply IH; intros; [apply Hhigh | apply P2]; now right.
    - apply P2. now left.
    - apply Hhigh. now left. }
  rewrite Hnone, app_nil_r. reflexivity.
Qed.

(** *** Insertion of the rest *)

Lemma binarysort_ordered (rest a : list A) :
  Forall P a -> Forall P rest -> StronglySorted (not_after lt) a ->
  let sorted := binarysort lt a rest in
  StronglySorted (not_after lt) sorted
  /\ forall k, P k ->
       filter (tied lt k) sorted = filter (tied lt k) (a ++ rest).
Proof.
  revert a; induction rest as [|pivot rest IH]; intros a Pa Prest Hsorted;
    simpl.
  - split; [exact Hsorted | intros; now rewrite app_nil_r].
  - inversion Prest as [|? ? Ppivot Prest']; subst.
    set (a' := insert_at (bisect lt (length a) a pivot 0 (length a)) pivot a).
    assert (Pa' : Forall P a').
    { eapply Permutation_Forall;
        [symmetry; apply insert_at_permutation|].
      constructor; assumption. }
    destruct (IH a' Pa' Prest' (insert_at_sorted pivot a Ppivot Pa Hsorted))
      as [Hs Hf].
    split; [exact Hs|]. intros k Pk.
    rewrite (Hf k Pk), filter_app. unfold a'.
    rewrite (insert_at_stable k pivot a Pk Ppivot Pa Hsorted).
    rewrite <- filter_app, <- app_assoc. reflexivity.
Qed.

(** *** The run the list starts with *)

Lemma run_ascending_sorted (l : list A) :
  Forall P l ->
  forall prev, P prev ->
    StronglySorted (not_after lt)
                   (prev :: firstn (run_ascending lt prev l) l).
Proof.
  induction 1 as [|x l Px Pl IH]; intros prev Pprev; simpl.
  - repeat constructor.
  - destruct (lt x prev) eqn:Hcmp; simpl; [repeat constructor|].
    specialize (IH x Px).
    constructor; [exact IH|].
    apply StronglySorted_inv in IH. destruct IH as [_ Hx].
    constructor; [exact Hcmp|].
    assert (Pfirst : Forall P (firstn (run_ascending lt x l) l)).
    { rewrite <- (firstn_skipn (run_ascending lt x l) l) in Pl.
      now apply Forall_app in Pl. }
    rewrite Forall_forall in *. intros y Hy.
    apply (not_after_trans prev x y); auto.
Qed.

Lemma run_descending_sorted (l : list A) :
  Forall P l ->
  forall prev, P prev ->
    StronglySorted (above lt)
                   (prev :: firstn (run_descending lt prev l) l).
Proof.
  induction 1 as [|x l Px Pl IH]; intros prev Pprev; simpl.
  - repeat constructor.
  - destruct (lt x prev) eqn:Hcmp; simpl; [|repeat constructor].
    specialize (IH x Px).
    constructor; [exact IH|].
    apply StronglySorted_inv in IH. destruct IH as [_ Hx].
    constructor; [exact Hcmp|].
    assert (Pfirst : Forall P (firstn (run_descending lt x l) l)).
    { rewrite <- (firstn_skipn (run_descending lt x l) l) in Pl.
      now apply Forall_app in Pl. }
    rewrite Forall_forall in *. intros y Hy. unfold above in *.
    apply (lt_trans y x prev); auto.
Qed.

(** In a strictly descending run no two elements are tied, and reversing
    it moves no tie. *)
Lemma strictly_descending_ties (k : A) (l : list A) :
  P k -> Forall P l -> StronglySorted (above lt) l ->
  filter (tied lt k) (rev l) = filter (tied lt k) l.
Proof.
  intros Pk Pl Hl. induction Hl as [|x l Hl IH Hx]; [reflexivity|].
  inversion Pl as [|? ? Px Pl']; subst. simpl.
  rewrite filter_app, (IH Pl'). simpl.
  destruct (tied lt k x) eqn:Htied; [|apply app_nil_r].
  assert (Hnone : filter (tied lt k) l = []).
  { rewrite Forall_forall in Hx, Pl'. clear - Hx Pl' Pk Px Htied lt_cotrans.
    induction l as [|y l IH]; [reflexivity|]. simpl.
    assert (Hy : tied lt k y = false).
    { unfold tied in *. apply andb_true_iff in Htied.
      destruct Htied as [Hkx _]. apply negb_true_iff in Hkx.
      assert (Hyx : lt y x = true) by (apply Hx; now left).
      destruct (lt_cotrans y x k) as [H|H]; auto;
        [apply Pl'; now left | | congruence].
      rewrite H. apply andb_false_r. }
    rewrite Hy. apply IH; intros; [apply Hx | apply Pl']; now right. }
  rewrite Hnone. reflexivity.
Qed.

(** *** The sort *)

Theorem sort_ascending_ordered (l : list A) :
  Forall P l ->
  StronglySorted (not_after lt) (sort_ascending lt l)
  /\ forall k, P k ->
       filter (tied lt k) (sort_ascending lt l) = filter (tied lt k) l.
Proof.
  intros Pl. unfold sort_ascending.
  destruct l as [|x [|y l']].
  - split; [constructor | reflexivity].
  - split; [repeat constructor | reflexivity].
  - inversion Pl as [|? ? Px Ptl]; subst.
    unfold count_run. destruct (lt y x) eqn:Hcmp; cbv beta iota.
    + pose proof (run_descending_sorted (y :: l') Ptl x Px) as Hrun.
      simpl in Hrun. rewrite Hcmp in Hrun. simpl in Hrun.
      set (run := x :: y :: firstn (run_descending lt y l') l') in *.
      set (rest := skipn (run_descending lt y l') l').
      assert (Hl : x :: y :: l' = run ++ rest).
      { unfold run, rest. simpl. now rewrite firstn_skipn. }
      assert (Psplit : Forall P run /\ Forall P rest).
      { apply Forall_app. now rewrite <- Hl. }
      destruct Psplit as [Prun Prest].
      assert (Hrev : StronglySorted (not_after lt) (rev run)).
      { apply (StronglySorted_weaken P (fun a b => above lt b a));
          [|now apply Forall_rev | now apply StronglySorted_rev].
        unfold above, not_after. intros a b Pa Pb. now apply lt_asym. }
      destruct (binarysort_ordered rest (rev run) (Forall_rev Prun) Prest Hrev)
        as [Hs Hf].
      change (firstn (S (S (run_descending lt y l'))) (x :: y :: l'))
        with run.
      change (skipn (S (S (run_descending lt y l'))) (x :: y :: l'))
        with rest.
      split; [exact Hs|]. intros k Pk.
      rewrite (Hf k Pk), filter_app.
      rewrite (strictly_descending_ties k run Pk Prun Hrun).
      rewrite <- filter_app, <- Hl. reflexivity.
    + pose proof (run_ascending_sorted (y :: l') Ptl x Px) as Hrun.
      simpl in Hrun. rewrite Hcmp in Hrun. simpl in Hrun.
      set (run := x :: y :: firstn (run_ascending lt y l') l') in *.
      set (rest := skipn (run_ascending lt y l') l').
      assert (Hl : x :: y :: l' = run ++ rest).
      { unfold run, rest. simpl. now rewrite firstn_skipn. }
      assert (Psplit : Forall P run /\ Forall P rest).
      { apply Forall_app. now rewrite <- Hl. }
      destruct Psplit as [Prun Prest].
      destruct (binarysort_ordered rest run Prun Prest Hrun) as [Hs Hf].
      change (firstn (S (S (run_ascending lt y l'))) (x :: y :: l'))
        with run.
      change (skipn (S (S (run_ascending lt y l'))) (x :: y :: l'))
        with rest.
      split; [exact Hs|]. intros k Pk.
      rewrite (Hf k Pk), <- Hl. reflexivity.
Qed.

(** A reverse sort leaves a descending list and keeps ties in the order of
    the input. *)
Theorem list_sort_reverse_ordered (l : list A) :
  Forall P l ->
  StronglySorted (not_before lt) (list_sort lt true l)
  /\ forall k, P k ->
       filter (tied lt k) (list_sort lt true l) = filter (tied lt k) l.
Proof.
  intros Pl. unfold list_sort.
  destruct (sort_ascending_ordered (rev l) (Forall_rev Pl)) as [Hs Hf].
  split.
  - apply StronglySorted_rev in Hs. exact Hs.
  - intros k Pk. rewrite filter_rev, (Hf k Pk), filter_rev.
    apply rev_involutive.
Qed.

(** *** A stable sort has one result

    Whatever list is in ascending order and has the ties of [l] in the
    order of [l] is the list the model gives: on keys that [<] orders, the
    run detection, the binary search and the merges of CPython cannot be
    told apart. *)

Lemma tied_refl (x : A) : P x -> tied lt x x = true.
Proof.
  intros Px. unfold tied.
  destruct (lt x x) eqn:Hxx; [|reflexivity].
  now rewrite (lt_asym x x Px Px Hxx) in Hxx.
Qed.

Lemma filter_head_in (f : A -> bool) (l : list A) (x : A) (tl : list A) :
  filter f l = x :: tl -> In x l /\ f x = true.
Proof.
  intros Hf. apply filter_In. rewrite Hf. now left.
Qed.

Lemma ascending_head_unique (x y : A) (l1 l2 : list A) :
  Forall P (x :: l1) -> Forall P (y :: l2) ->
  StronglySorted (not_after lt) (x :: l1) ->
  StronglySorted (not_after lt) (y :: l2) ->
  (forall k, P k ->
     filter (tied lt k) (x :: l1) = filter (tied lt k) (y :: l2)) ->
  x = y.
Proof.
  intros P1 P2 H1 H2 Hf.
  inversion P1 as [|? ? Px Pl1]; inversion P2 as [|? ? Py Pl2]; subst.
  apply StronglySorted_inv in H1, H2.
  destruct H1 as [_ Hx], H2 as [_ Hy].
  rewrite Forall_forall in Hx, Hy, Pl1, Pl2.
  assert (Hfx := Hf x Px). assert (Hfy := Hf y Py).
  simpl in Hfx, Hfy. rewrite (tied_refl x Px) in Hfx.
  rewrite (tied_refl y Py) in Hfy.
  destruct (tied lt x y) eqn:Hxy; [congruence|].
  assert (Hyx : tied lt y x = false).
  { unfold tied in *. now rewrite andb_comm. }
  rewrite Hyx in Hfy.
  (* [x] is in [l2] and [y] is in [l1] *)
  destruct (filter_head_in _ _ _ _ (eq_sym Hfx)) as [Hxin _].
  destruct (filter_head_in _ _ _ _ Hfy) as [Hyin _].
  specialize (Hy x Hxin). specialize (Hx y Hyin).
  unfold not_after, tied in *. rewrite Hx, Hy in Hxy. discriminate.
Qed.

Theorem stable_sort_unique (l1 : list A) :
  forall l2 : list A,
    Forall P l1 -> Forall P l2 ->
    StronglySorted (not_after lt) l1 ->
    StronglySorted (not_after lt) l2 ->
    (forall k, P k -> filter (tied lt k) l1 = filter (tied lt k) l2) ->
    l1 = l2.
Proof.
  induction l1 as [|x l1 IH]; intros [|y l2] P1 P2 H1 H2 Hf.
  - reflexivity.
  - inversion P2 as [|? ? Py _]; subst.
    specialize (Hf y Py). simpl in Hf.
    rewrite (tied_refl y Py) in Hf. discriminate.
  - inversion P1 as [|? ? Px _]; subst.
    specialize (Hf x Px). simpl in Hf.
    rewrite (tied_refl x Px) in Hf. discriminate.
  - assert (x = y) by (eapply ascending_head_unique; eauto). subst y.
    f_equal.
    inversion P1; inversion P2; subst.
    apply StronglySorted_inv in H1, H2.
    apply IH; try tauto.
    intros k Pk. specialize (Hf k Pk). simpl in Hf.
    destruct (tied lt k x); congruence.
Qed.

(** Any list in descending order that keeps the ties of [l] in the order
    of [l] is [list_sort lt true l]. *)
Corollary list_sort_reverse_unique (l sorted : list A) :
  Forall P l -> Forall P sorted ->
  StronglySorted (not_before lt) sorted ->
  (forall k, P k -> filter (tied lt k) sorted = filter (tied lt k) l) ->
  sorted = list_sort lt true l.
Proof.
  intros Pl Ps Hs Hf.
  destruct (list_sort_reverse_ordered l Pl) as [Hs' Hf'].
  assert (Ps' : Forall P (list_sort lt true l)).
  { eapply Permutation_Forall;
      [symmetry; apply list_sort_permutation | exact Pl]. }
  rewrite <- (rev_involutive sorted), <- (rev_involutive (list_sort _ _ _)).
  f_equal. apply stable_sort_unique.
  - now apply Forall_rev.
  - now apply Forall_rev.
  - apply StronglySorted_rev in Hs. exact Hs.
  - apply StronglySorted_rev in Hs'. exact Hs'.
  - intros k Pk. rewrite !filter_rev, (Hf k Pk), (Hf' k Pk). reflexivity.
Qed.

End SortOrdered.

(** ** The order of binary64 without NaN *)

Ltac b64_order :=
  unfold B64.ltb, B64.leb, B64.eqb, SFltb, SFleb, SFeqb, SFcompare,
    order_key, key_lt;
  repeat match goal with
         | s : bool |- _ => destruct s
         end;
  repeat match goal with
         | |- context [Z.compare ?a ?b] => destruct (Z.compare_spec a b)
         | |- context [Pos.compare_cont Eq ?a ?b] =>
             change (Pos.compare_cont Eq a b) with (Pos.compare a b);
             destruct (Pos.compare_spec a b)
         end;
  simpl; split; intros Hcmp; try discriminate Hcmp; try reflexivity;
  try (destruct Hcmp as [Hcmp|Hcmp]);
  try discriminate Hcmp;
  try (injection Hcmp; intros);
  subst; try reflexivity; try lia;
  try (left; lia);
  try (right; reflexivity).

Lemma ltb_key (x y : B64.t) :
  B64.is_nan x = false -> B64.is_nan y = false ->
  (B64.ltb x y = true <-> key_lt (order_key x) (order_key y)).
Proof.
  destruct x as [sx|sx| |sx mx ex], y as [sy|sy| |sy my ey];
    intros Hx Hy; try discriminate; b64_order.
Qed.

Lemma leb_key (x y : B64.t) :
  B64.is_nan x = false -> B64.is_nan y = false ->
  (B64.leb x y = true
   <-> key_lt (order_key x) (order_key y) \/ order_key x = order_key y).
Proof.
  destruct x as [sx|sx| |sx mx ex], y as [sy|sy| |sy my ey];
    intros Hx Hy; try discriminate; b64_order.
Qed.

Lemma eqb_key (x y : B64.t) :
  B64.is_nan x = false -> B64.is_nan y = false ->
  (B64.eqb x y = true <-> order_key x = order_key y).
Proof.
  destruct x as [sx|sx| |sx mx ex], y as [sy|sy| |sy my ey];
    intros Hx Hy; try discriminate; b64_order.
Qed.

Lemma key_lt_asym (a b : Z * Z * Z) : key_lt a b -> ~ key_lt b a.
Proof.
  destruct a as [[a1 a2] a3], b as [[b1 b2] b3]; simpl. lia.
Qed.

Lemma key_lt_cotrans (a b c : Z * Z * Z) :
  key_lt a b -> key_lt a c \/ key_lt c b.
Proof.
  destruct a as [[a1 a2] a3], b as [[b1 b2] b3], c as [[c1 c2] c3]; simpl.
  lia.
Qed.

Lemma key_lt_total (a b : Z * Z * Z) : key_lt a b \/ a = b \/ key_lt b a.
Proof.
  destruct a as [[a1 a2] a3], b as [[b1 b2] b3]; simpl.
  destruct (Z.lt_total a1 b1) as [H1|[H1|H1]];
    [left; lia | | right; right; lia].
  destruct (Z.lt_total a2 b2) as [H2|[H2|H2]];
    [left; lia | | right; right; lia].
  destruct (Z.lt_total a3 b3) as [H3|[H3|H3]];
    [left; lia | right; left; congruence | right; right; lia].
Qed.

Lemma key_lt_irrefl (a : Z * Z * Z) : ~ key_lt a a.
Proof. intros H. exact (key_lt_asym a a H H). Qed.

(** On scores that are not NaN, [<] is asymmetric and compares any third
    score with one of two it separates. *)
Lemma score_lt_asym (x y : scored) :
  B64.is_nan (snd x) = false -> B64.is_nan (snd y) = false ->
  score_lt x y = true -> score_lt y x = false.
Proof.
  unfold score_lt. intros Hx Hy Hlt.
  apply (ltb_key _ _ Hx Hy) in Hlt.
  destruct (B64.ltb (snd y) (snd x)) eqn:Hrev; [|reflexivity].
  apply (ltb_key _ _ Hy Hx) in Hrev.
  destruct (key_lt_asym _ _ Hlt Hrev).
Qed.

Lemma score_lt_cotrans (x y z : scored) :
  B64.is_nan (snd x) = false -> B64.is_nan (snd y) = false ->
  B64.is_nan (snd z) = false ->
  score_lt x y = true -> score_lt x z = true \/ score_lt z y = true.
Proof.
  unfold score_lt. intros Hx Hy Hz Hlt.
  apply (ltb_key _ _ Hx Hy) in Hlt.
  destruct (key_lt_cotrans _ _ (order_key (snd z)) Hlt) as [H|H];
    [left | right]; now apply ltb_key.
Qed.

(** Without NaN, [x] not being less than [y] is [y <= x]. *)
Lemma not_before_score_ge (x y : scored) :
  B64.is_nan (snd x) = false -> B64.is_nan (snd y) = false ->
  not_before score_lt x y -> score_ge x y.
Proof.
  unfold not_before, score_lt, score_ge. intros Hx Hy Hnlt.
  apply (leb_key _ _ Hy Hx).
  destruct (key_lt_total (order_key (snd y)) (order_key (snd x)))
    as [H|[H|H]]; [now left | now right |].
  apply (ltb_key _ _ Hx Hy) in H. congruence.
Qed.

(** Without NaN, two scores are tied for the sort when they are [==]. *)
Lemma tied_same_score (path : string) (k : B64.t) (x : scored) :
  B64.is_nan k = false -> B64.is_nan (snd x) = false ->
  same_score k x = tied score_lt (path, k) x.
Proof.
  unfold same_score, tied, score_lt. simpl. intros Hk Hx.
  destruct (B64.eqb (snd x) k) eqn:Heq.
  - apply (eqb_key _ _ Hx Hk) in Heq.
    destruct (B64.ltb k (snd x)) eqn:H1.
    { apply (ltb_key _ _ Hk Hx) in H1. rewrite Heq in H1.
      destruct (key_lt_irrefl _ H1). }
    destruct (B64.ltb (snd x) k) eqn:H2; [|reflexivity].
    apply (ltb_key _ _ Hx Hk) in H2. rewrite Heq in H2.
    destruct (key_lt_irrefl _ H2).
  - destruct (key_lt_total (order_key (snd x)) (order_key k)) as [H|[H|H]].
    + apply (ltb_key _ _ Hx Hk) in H. rewrite H. now rewrite andb_false_r.
    + apply (eqb_key _ _ Hx Hk) in H. congruence.
    + apply (ltb_key _ _ Hk Hx) in H. now rewrite H.
Qed.

Lemma same_score_nan (k : B64.t) (l : list scored) :
  B64.is_nan k = true -> filter (same_score k) l = [].
Proof.
  intros Hk. destruct k; try discriminate.
  induction l as [|x l IH]; [reflexivity|]. simpl. rewrite IH.
  unfold same_score, B64.eqb, SFeqb, SFcompare.
  destruct (snd x); reflexivity.
Qed.

(** ** The ranking on scores without NaN *)

Lemma list_sort_scores (scores : list scored) :
  nan_free scores ->
  let sorted := list_sort score_lt true scores in
  nan_free sorted
  /\ StronglySorted score_ge sorted
  /\ forall k, filter (same_score k) sorted = filter (same_score k) scores.
Proof.
  intros Hfree sorted.
  assert (Hsorted_free : nan_free sorted).
  { eapply Permutation_Forall;
      [symmetry; apply list_sort_permutation | exact Hfree]. }
  destruct (list_sort_reverse_ordered score_lt
              (fun x => B64.is_nan (snd x) = false)
              score_lt_asym score_lt_cotrans scores Hfree) as [Hs Hf].
  fold sorted in Hs, Hf.
  split; [exact Hsorted_free|]. split.
  - apply (StronglySorted_weaken (fun x => B64.is_nan (snd x) = false)
             (not_before score_lt)); auto.
    intros x y. apply not_before_score_ge.
  - intros k. destruct (B64.is_nan k) eqn:Hk.
    + now rewrite !same_score_nan.
    + rewrite (filter_ext_in (same_score k) (tied score_lt (""%string, k))
                 sorted).
      * rewrite (filter_ext_in (same_score k)
                   (tied score_lt (""%string, k)) scores).
        -- apply (Hf (""%string, k)). exact Hk.
        -- unfold nan_free in Hfree. rewrite Forall_forall in Hfree.
           intros x Hx. apply tied_same_score; auto.
      * unfold nan_free in Hsorted_free.
        rewrite Forall_forall in Hsorted_free.
        intros x Hx. apply tied_same_score; auto.
Qed.

Lemma StronglySorted_slice_stop {A : Type} (R : A -> A -> Prop) (l : list A)
      (stop : Z) :
  StronglySorted R l -> StronglySorted R (slice_stop l stop).
Proof.
  intros Hl. destruct (slice_stop_prefix l stop) as [rest Hrest].
  rewrite Hrest in Hl. now apply StronglySorted_app_inv in Hl.
Qed.

(** C6 (as the code has it): on a corpus of the query's dimension whose
    scores are not NaN, the list [find_relevant_files] returns is in
    descending order of score: the score of every entry is greater than or
    equal to the score of the next one, and of every later one. *)
Theorem rank_descending (q : list B64.t) (embeddings : list item) (limit : Z) :
  Forall (aligned q) embeddings ->
  nan_free (map (score_of q) embeddings) ->
  exists res : list scored,
    find_relevant_files q embeddings limit = Ok res
    /\ Sorted score_ge res
    /\ StronglySorted score_ge res.
Proof.
  intros Hall Hfree.
  destruct (list_sort_scores _ Hfree) as (_ & Hs & _).
  eexists. split; [now apply find_relevant_files_aligned|].
  assert (Hres := StronglySorted_slice_stop score_ge _ limit Hs).
  split; [now apply StronglySorted_Sorted | exact Hres].
Qed.

Lemma rank_descending_witness :
  exists res : list scored,
    find_relevant_files query_10 corpus_abc 3 = Ok res
    /\ Sorted score_ge res.
Proof.
  assert (Hall : Forall (aligned query_10) corpus_abc)
    by (repeat constructor).
  assert (Hfree : nan_free (map (score_of query_10) corpus_abc))
    by (repeat constructor).
  destruct (rank_descending query_10 corpus_abc 3 Hall Hfree)
    as (res & Hres & Hsorted & _).
  exists res. split; [exact Hres | exact Hsorted].
Defined.

(** C6 (as stated) fails: the NaN score of a zero vector is neither above nor
    below another score; it stays at the head of the ranking, and the score
    after it is not less than or equal to it. *)
Lemma rank_not_descending_with_nan :
  exists (first second : scored),
    find_relevant_files query_10 corpus_zero 2 = Ok [first; second]
    /\ B64.leb (snd second) (snd first) = false.
Proof.
  do 2 eexists. split; vm_compute; reflexivity.
Qed.

(** C4 (as the code has it): on a corpus of the query's dimension whose
    scores are not NaN, the entries of one score keep the order of the
    corpus: for every score, the returned entries that have it are the first
    of the corpus that have it, in the order of the corpus, and all of them
    when the limit is at least the size of the corpus. *)
Theorem rank_ties_stable (q : list B64.t) (embeddings : list item)
        (limit : Z) :
  Forall (aligned q) embeddings ->
  nan_free (map (score_of q) embeddings) ->
  exists res : list scored,
    find_relevant_files q embeddings limit = Ok res
    /\ (forall k, exists rest,
          filter (same_score k) (map (score_of q) embeddings)
          = filter (same_score k) res ++ rest)
    /\ ((Z.of_nat (length embeddings) <= limit)%Z ->
        forall k, filter (same_score k) res
                  = filter (same_score k) (map (score_of q) embeddings)).
Proof.
  intros Hall Hfree.
  destruct (list_sort_scores _ Hfree) as (_ & _ & Hf).
  set (sorted := list_sort score_lt true (map (score_of q) embeddings)) in *.
  exists (slice_stop sorted limit).
  split; [now apply find_relevant_files_aligned|]. split.
  - intros k. destruct (slice_stop_prefix sorted limit) as [rest Hrest].
    exists (filter (same_score k) rest).
    rewrite <- (Hf k), <- filter_app, <- Hrest. reflexivity.
  - intros Hbig k. rewrite slice_stop_all; [apply Hf|].
    unfold sorted.
    rewrite (Permutation_length (list_sort_permutation score_lt true _)).
    now rewrite length_map.
Qed.

Lemma rank_ties_stable_witness :
  exists res : list scored,
    find_relevant_files query_10
      [record "t2.py" (vec2 0 1); record "a.py" (vec2 1 0);
       record "t1.py" (vec2 0 1)] 3 = Ok res
    /\ map fst (filter (same_score (B64.of_Z 0)) res) = ["t2.py"; "t1.py"].
Proof.
  set (corpus := [record "t2.py" (vec2 0 1); record "a.py" (vec2 1 0);
                  record "t1.py" (vec2 0 1)]).
  assert (Hall : Forall (aligned query_10) corpus) by (repeat constructor).
  assert (Hfree : nan_free (map (score_of query_10) corpus))
    by (repeat constructor).
  destruct (rank_ties_stable query_10 corpus 3 Hall Hfree)
    as (res & Hres & _ & Hties).
  exists res. split; [exact Hres|].
  rewrite Hties by (simpl; lia). vm_compute. reflexivity.
Defined.

(** C4 (as stated) fails: with a NaN score in the list the binary search of
    the sort goes astray.  The corpus has ["t2.py"] before ["t1.py"], both of
    score [0.0]; the ranking has ["t1.py"] before ["t2.py"]. *)
Lemma rank_ties_reordered_with_nan :
  exists (scores res : list scored),
    score_loop query_10 corpus_ties [] = Ok scores
    /\ find_relevant_files query_10 corpus_ties 7 = Ok res
    /\ map fst (filter (same_score (B64.of_Z 0)) scores) = ["t2.py"; "t1.py"]
    /\ map fst (filter (same_score (B64.of_Z 0)) res) = ["t1.py"; "t2.py"].
Proof.
  do 2 eexists. repeat split; vm_compute; reflexivity.
Qed.

(** ** Exact sums

    The accumulation loop read over the real numbers: the sums that the
    binary64 loop rounds. *)
Section Exact.
Open Scope R_scope.





End Exact.

(** ** Rounding in binary64 *)

(** *** The rounding of a mantissa *)
















(** *** The real number of a binary64 datum *)
Section Rounding.
Open Scope R_scope.

Lemma bpow_pos (e : Z) : 0 < bpow e.
Proof. apply powerRZ_lt. lra. Qed.

Lemma bpow_add (a b : Z) : bpow (a + b) = bpow a * bpow b.
Proof. apply powerRZ_add. lra. Qed.


Lemma bpow_1 : bpow 1 = 2.
Proof. unfold bpow. simpl. ring. Qed.

Lemma bpow_IZR (k : Z) : (0 <= k)%Z -> IZR (2 ^ k) = bpow k.
Proof.
  intros Hk. unfold bpow.
  rewrite <- (Z2Nat.id k Hk) at 1.
  rewrite <- pow_IZR, pow_powerRZ. now rewrite Z2Nat.id.
Qed.

Lemma bpow_ge_1 (k : Z) : (0 <= k)%Z -> 1 <= bpow k.
Proof.
  intros Hk. rewrite <- bpow_IZR by exact Hk.
  apply IZR_le. assert (0 < 2 ^ k)%Z by (apply Z.pow_pos_nonneg; lia). lia.
Qed.


Lemma bpow_lt (a b : Z) : (a < b)%Z -> bpow a < bpow b.
Proof.
  intros Hab. replace b with (a + 1 + (b - a - 1))%Z by lia.
  rewrite !bpow_add. pose proof (bpow_pos a).
  pose proof (bpow_ge_1 (b - a - 1) ltac:(lia)).
  rewrite bpow_1. nra.
Qed.


Lemma bpow_inv_r (a : Z) : bpow a * bpow (- a) = 1.
Proof. rewrite <- bpow_add, Z.add_opp_diag_r. reflexivity. Qed.






Lemma bpow_le_inv (a b : Z) : bpow a <= bpow b -> (a <= b)%Z.
Proof.
  intros H. destruct (Z.le_gt_cases a b) as [Hle|Hgt]; [exact Hle|].
  pose proof (bpow_lt b a Hgt). lra.
Qed.




Lemma sign_of_sqr (a : bool) : sign_of a * sign_of a = 1.
Proof. destruct a; simpl; ring. Qed.



(** *** Multiplication *)


(** *** Square root *)








(** *** Division *)






(** *** Addition *)








End Rounding.

(** ** The error of the score *)
Section Analysis.
Open Scope R_scope.









(** *** The accumulation loop *)







(** *** The growth of the error with the number of turns *)






(** *** The exact sums *)







(** *** The computed magnitude *)


(** *** Vectors of zero magnitude *)




(** *** The score *)


(** *** Small integers *)





(** *** The score in binary64 *)





End Analysis.




(** The range of the components in the bound of the score is needed: the
    square of [1.2 * 2^-537] is a subnormal number and rounds to less than
    it is, and the score of [[1.2 * 2^-537]] with [[1]] is [1.2]. *)
Lemma cosine_bound_needs_range :
  cosine_similarity [S754_finite false 5404319552844595 (-589)] [B64.of_Z 1]
  = Ok (B64.of_decimal 12 1).
Proof. vm_compute; reflexivity. Qed.

(** So is the lower end of the range of the sum of squares: the square of
    [1e-200] rounds to zero, and the score of [[1e-200]] with itself is
    NaN. *)
Lemma self_similarity_underflow :
  dot_loop [B64.of_decimal 1 200] [B64.of_decimal 1 200] = B64.zero
  /\ cosine_similarity [B64.of_decimal 1 200] [B64.of_decimal 1 200]
     = Ok B64.nan.
Proof. split; vm_compute; reflexivity. Qed.

(** * Further properties of the code *)

(** ** NaN among the components *)

Lemma b64_add_nan_l (x : B64.t) : s_add B64.nan x = B64.nan.
Proof. reflexivity. Qed.

Lemma b64_add_nan_r (x : B64.t) : s_add x B64.nan = B64.nan.
Proof. destruct x; reflexivity. Qed.

Lemma b64_mul_nan (x y : B64.t) :
  B64.is_nan x = true \/ B64.is_nan y = true -> s_mul x y = B64.nan.
Proof.
  destruct x, y; simpl; intros [H|H]; try discriminate; reflexivity.
Qed.

Lemma dot_fold_nan_acc (l : list (B64.t * B64.t)) :
  fold_left (fun tmp xy => s_add tmp (s_mul (fst xy) (snd xy))) l B64.nan
  = B64.nan.
Proof.
  induction l as [|xy l IH]; cbn [fold_left]; [reflexivity|].
  rewrite b64_add_nan_l. exact IH.
Qed.

Lemma dot_fold_nan (l : list (B64.t * B64.t)) :
  Exists (fun xy => B64.is_nan (fst xy) = true \/ B64.is_nan (snd xy) = true)
         l ->
  forall acc,
    fold_left (fun tmp xy => s_add tmp (s_mul (fst xy) (snd xy))) l acc
    = B64.nan.
Proof.
  induction 1 as [xy l Hxy|xy l _ IH]; intros acc; cbn [fold_left].
  - rewrite (b64_mul_nan _ _ Hxy), b64_add_nan_r. apply dot_fold_nan_acc.
  - apply IH.
Qed.

Lemma Exists_combine_l {A B : Type} (Q : A -> Prop) (a : list A) :
  Exists Q a ->
  forall b : list B, length a = length b ->
    Exists (fun xy => Q (fst xy)) (combine a b).
Proof.
  induction 1 as [x a Hx|x a _ IH]; intros [|y b] Hlen; simpl in *;
    try discriminate.
  - now left.
  - right. apply IH. lia.
Qed.

Lemma Exists_combine_r {A B : Type} (Q : B -> Prop) (b : list B) :
  Exists Q b ->
  forall a : list A, length a = length b ->
    Exists (fun xy => Q (snd xy)) (combine a b).
Proof.
  induction 1 as [y b Hy|y b _ IH]; intros [|x a] Hlen; simpl in *;
    try discriminate.
  - now left.
  - right. apply IH. lia.
Qed.

(** X2: a NaN anywhere in either vector makes the score NaN: [np.dot] carries it
    through the whole sum and the division keeps it. *)
Theorem cosine_similarity_nan_component (a b : list B64.t) :
  length a = length b ->
  Exists (fun x => B64.is_nan x = true) a
  \/ Exists (fun x => B64.is_nan x = true) b ->
  cosine_similarity a b = Ok B64.nan.
Proof.
  intros Hlen Hnan. rewrite cosine_similarity_aligned by exact Hlen.
  f_equal. unfold cosine_value.
  assert (Hdot : dot_loop a b = B64.nan).
  { apply dot_fold_nan. destruct Hnan as [Ha|Hb].
    - eapply Exists_impl; [|apply (Exists_combine_l _ a Ha b Hlen)].
      intros xy H. now left.
    - eapply Exists_impl; [|apply (Exists_combine_r _ b Hb a Hlen)].
      intros xy H. now right. }
  rewrite Hdot. reflexivity.
Qed.

Lemma cosine_similarity_nan_component_witness :
  cosine_similarity [B64.of_Z 1; B64.nan] (vec2 1 0) = Ok B64.nan.
Proof.
  apply cosine_similarity_nan_component.
  - reflexivity.
  - left. right. left. reflexivity.
Defined.

(** ** The ranker on any corpus of the query's dimension *)

Lemma list_sort_scores_length (q : list B64.t) (embeddings : list item) :
  length (list_sort score_lt true (map (score_of q) embeddings))
  = length embeddings.
Proof.
  rewrite (Permutation_length (list_sort_permutation score_lt true _)).
  apply length_map.
Qed.

(** X4: every entry that comes back is the path and the score of a record of the
    corpus, and no record comes back twice: the result and what the slice
    left out are, together, a rearrangement of the scored corpus.  This holds
    for every limit and with NaN among the scores. *)
Theorem rank_entries_from_corpus (q : list B64.t) (embeddings : list item)
        (limit : Z) :
  Forall (aligned q) embeddings ->
  exists res rest : list scored,
    find_relevant_files q embeddings limit = Ok res
    /\ Permutation (res ++ rest) (map (score_of q) embeddings)
    /\ incl (map fst res) (map file_path embeddings).
Proof.
  intros Hall.
  set (sorted := list_sort score_lt true (map (score_of q) embeddings)).
  destruct (slice_stop_prefix sorted limit) as [rest Hrest].
  exists (slice_stop sorted limit), rest.
  split; [now apply find_relevant_files_aligned|].
  assert (Hperm : Permutation (slice_stop sorted limit ++ rest)
                              (map (score_of q) embeddings)).
  { rewrite <- Hrest. apply list_sort_permutation. }
  split; [exact Hperm|].
  intros path Hpath. apply in_map_iff in Hpath.
  destruct Hpath as (x & Hfst & Hx).
  assert (Hin : In x (map (score_of q) embeddings)).
  { eapply Permutation_in; [exact Hperm|]. apply in_or_app. now left. }
  apply in_map_iff in Hin. destruct Hin as (it & Hscore & Hit).
  apply in_map_iff. exists it. split; [|exact Hit].
  rewrite <- Hfst, <- Hscore. reflexivity.
Qed.

Lemma rank_entries_from_corpus_witness :
  exists res rest : list scored,
    find_relevant_files query_10 corpus_zero 1 = Ok res
    /\ Permutation (res ++ rest) (map (score_of query_10) corpus_zero).
Proof.
  assert (Hall : Forall (aligned query_10) corpus_zero)
    by (repeat constructor).
  destruct (rank_entries_from_corpus query_10 corpus_zero 1 Hall)
    as (res & rest & Hres & Hperm & _).
  exists res, rest. split; [exact Hres | exact Hperm].
Defined.

(** X5: without NaN the result is the top of the corpus: every entry that comes
    back scores at least as high as every entry the slice left out. *)
Theorem rank_top_scores (q : list B64.t) (embeddings : list item)
        (limit : Z) :
  Forall (aligned q) embeddings ->
  nan_free (map (score_of q) embeddings) ->
  exists res rest : list scored,
    find_relevant_files q embeddings limit = Ok res
    /\ Permutation (res ++ rest) (map (score_of q) embeddings)
    /\ forall x y, In x res -> In y rest -> score_ge x y.
Proof.
  intros Hall Hfree.
  destruct (list_sort_scores _ Hfree) as (_ & Hs & _).
  set (sorted := list_sort score_lt true (map (score_of q) embeddings)) in *.
  destruct (slice_stop_prefix sorted limit) as [rest Hrest].
  exists (slice_stop sorted limit), rest.
  split; [now apply find_relevant_files_aligned|].
  split; [rewrite <- Hrest; apply list_sort_permutation|].
  rewrite Hrest in Hs. apply StronglySorted_app_inv in Hs.
  destruct Hs as (_ & _ & Hcross). rewrite Forall_forall in Hcross.
  intros x y Hx Hy. specialize (Hcross x Hx).
  rewrite Forall_forall in Hcross. now apply Hcross.
Qed.

Lemma rank_top_scores_witness :
  exists res rest : list scored,
    find_relevant_files query_10 corpus_abc 2 = Ok res
    /\ Permutation (res ++ rest) (map (score_of query_10) corpus_abc)
    /\ forall x y, In x res -> In y rest -> score_ge x y.
Proof.
  apply rank_top_scores; repeat constructor.
Defined.

Lemma slice_stop_nonneg {A : Type} (l : list A) (stop : Z) :
  (0 <= stop)%Z -> slice_stop l stop = firstn (Z.to_nat stop) l.
Proof.
  intros Hstop. unfold slice_stop.
  destruct (Z.ltb_spec stop 0) as [Hneg|_]; [lia|].
  destruct (Z.le_ge_cases stop (Z.of_nat (length l))) as [Hle|Hge].
  - now rewrite Z.min_l.
  - rewrite Z.min_r by exact Hge. rewrite Nat2Z.id.
    rewrite firstn_all. symmetry. apply firstn_all2. lia.
Qed.

(** X6: a larger limit only adds to the end: for [0 <= k <= k'] the result for
    limit [k] is the beginning of the result for limit [k']. *)
Theorem rank_limit_prefix (q : list B64.t) (embeddings : list item)
        (k k' : Z) :
  Forall (aligned q) embeddings ->
  (0 <= k <= k')%Z ->
  exists res more : list scored,
    find_relevant_files q embeddings k = Ok res
    /\ find_relevant_files q embeddings k' = Ok (res ++ more).
Proof.
  intros Hall Hk.
  set (sorted := list_sort score_lt true (map (score_of q) embeddings)).
  exists (firstn (Z.to_nat k) sorted),
         (skipn (Z.to_nat k) (firstn (Z.to_nat k') sorted)).
  rewrite !find_relevant_files_aligned by exact Hall. fold sorted.
  rewrite !slice_stop_nonneg by lia. split; [reflexivity|].
  f_equal.
  rewrite <- (firstn_skipn (Z.to_nat k) (firstn (Z.to_nat k') sorted)) at 1.
  f_equal. rewrite firstn_firstn. f_equal. lia.
Qed.

Lemma rank_limit_prefix_witness :
  exists res more : list scored,
    find_relevant_files query_10 corpus_abc 1 = Ok res
    /\ find_relevant_files query_10 corpus_abc 3 = Ok (res ++ more).
Proof.
  apply rank_limit_prefix; [repeat constructor | lia].
Defined.

(** X7: a negative limit counts from the end of the ranking: the call returns
    what the limit [max(0, |corpus| + limit)] returns, that many entries. *)
Theorem rank_negative_limit (q : list B64.t) (embeddings : list item)
        (limit : Z) :
  Forall (aligned q) embeddings ->
  (limit < 0)%Z ->
  let kept := Z.max 0 (Z.of_nat (length embeddings) + limit) in
  exists res : list scored,
    find_relevant_files q embeddings limit = Ok res
    /\ find_relevant_files q embeddings kept = Ok res
    /\ Z.of_nat (length res) = kept.
Proof.
  intros Hall Hneg kept.
  set (sorted := list_sort score_lt true (map (score_of q) embeddings)).
  assert (Hlen : length sorted = length embeddings)
    by apply list_sort_scores_length.
  exists (slice_stop sorted limit).
  rewrite !find_relevant_files_aligned by exact Hall. fold sorted.
  assert (Heq : slice_stop sorted limit = slice_stop sorted kept).
  { unfold slice_stop. rewrite Hlen.
    destruct (Z.ltb_spec limit 0) as [_|Hge]; [|lia].
    destruct (Z.ltb_spec kept 0) as [Hk|_]; [unfold kept in Hk; lia|].
    f_equal. unfold kept. lia. }
  split; [reflexivity|]. split; [now rewrite Heq|].
  rewrite Heq, slice_stop_length by (unfold kept; lia).
  rewrite Hlen. unfold kept. lia.
Qed.

Lemma rank_negative_limit_witness :
  exists res : list scored,
    find_relevant_files query_10 corpus_abc (-1) = Ok res
    /\ find_relevant_files query_10 corpus_abc 2 = Ok res
    /\ Z.of_nat (length res) = 2%Z.
Proof.
  apply (rank_negative_limit query_10 corpus_abc (-1));
    [repeat constructor | lia].
Defined.

(** ** The ranker on the dicts of the store *)

Lemma score_loop_json_skip (q : list B64.t) (front : list item)
      (rest : list json_item) :
  Forall (aligned q) front ->
  forall scores,
    score_loop_json q (map to_json front ++ rest) scores
    = score_loop_json q rest (scores ++ map (score_of q) front).
Proof.
  induction 1 as [|it front Hit _ IH]; intros scores; simpl.
  - now rewrite app_nil_r.
  - rewrite cosine_similarity_aligned by (symmetry; exact Hit).
    rewrite IH, <- app_assoc. reflexivity.
Qed.

(** X10: the first record that is not in order decides how the ranker fails,
    whatever follows it.  A record without ["embedding"] raises [KeyError]
    for that key; a record whose vector has the wrong length raises
    [ValueError], with or without a ["file_path"]; a record with a vector of
    the right length and no ["file_path"] raises [KeyError] for that key. *)
Theorem first_bad_record_decides (q : list B64.t) (front : list item)
        (bad : json_item) (rest : list json_item) (limit : Z) :
  Forall (aligned q) front ->
  let run := find_relevant_files_json q (map to_json front ++ bad :: rest)
                                      limit in
  (json_embedding bad = None -> run = KeyError "embedding")
  /\ (forall v, json_embedding bad = Some v -> length v <> length q ->
                run = Raised ValueError)
  /\ (forall v, json_embedding bad = Some v -> length v = length q ->
                json_file_path bad = None -> run = KeyError "file_path").
Proof.
  intros Hfront run. subst run. unfold find_relevant_files_json.
  rewrite (score_loop_json_skip q front (bad :: rest) Hfront). simpl.
  repeat split.
  - intros Hnone. now rewrite Hnone.
  - intros v Hv Hlen. rewrite Hv.
    rewrite cosine_similarity_not_aligned by congruence. reflexivity.
  - intros v Hv Hlen Hpath. rewrite Hv.
    rewrite cosine_similarity_aligned by congruence. now rewrite Hpath.
Qed.

Lemma first_bad_record_decides_witness :
  find_relevant_files_json query_10
    [to_json (record "a.py" (vec2 1 0));
     {| json_file_path := Some "b.py"; json_embedding := None |}] 5
  = KeyError "embedding"
  /\ find_relevant_files_json query_10
       [to_json (record "a.py" (vec2 1 0));
        {| json_file_path := None; json_embedding := Some [B64.of_Z 1] |}] 5
     = Raised ValueError
  /\ find_relevant_files_json query_10
       [to_json (record "a.py" (vec2 1 0));
        {| json_file_path := None; json_embedding := Some (vec2 0 1) |}] 5
     = KeyError "file_path".
Proof.
  assert (Hfront : Forall (aligned query_10) [record "a.py" (vec2 1 0)])
    by (repeat constructor).
  split; [|split].
  - apply (first_bad_record_decides query_10 [record "a.py" (vec2 1 0)]
             {| json_file_path := Some "b.py"; json_embedding := None |}
             [] 5 Hfront).
    reflexivity.
  - apply (first_bad_record_decides query_10 [record "a.py" (vec2 1 0)]
             {| json_file_path := None;
                json_embedding := Some [B64.of_Z 1] |}
             [] 5 Hfront) with (v := [B64.of_Z 1]).
    + reflexivity.
    + simpl. lia.
  - apply (first_bad_record_decides query_10 [record "a.py" (vec2 1 0)]
             {| json_file_path := None;
                json_embedding := Some (vec2 0 1) |}
             [] 5 Hfront) with (v := vec2 0 1); reflexivity.
Defined.

(** ** The ranking does not depend on how the sort works *)

Lemma score_ge_not_before (x y : scored) :
  B64.is_nan (snd x) = false -> B64.is_nan (snd y) = false ->
  score_ge x y -> not_before score_lt x y.
Proof.
  unfold not_before, score_lt, score_ge. intros Hx Hy Hge.
  apply (leb_key _ _ Hy Hx) in Hge.
  destruct (B64.ltb (snd x) (snd y)) eqn:Hlt; [|reflexivity].
  apply (ltb_key _ _ Hx Hy) in Hlt. destruct Hge as [Hge|Heq].
  - destruct (key_lt_asym _ _ Hlt Hge).
  - rewrite Heq in Hlt. destruct (key_lt_irrefl _ Hlt).
Qed.

(** X8: without NaN the scores and the order of the corpus fix the whole
    ranking: a rearrangement of the scored corpus that is in descending
    order of score and keeps the entries of every score in the order of the
    corpus is the list [find_relevant_files] returns (for a limit that
    covers the corpus).  No other property of [list.sort] shows in the
    result. *)
Theorem rank_is_the_stable_descending_order (q : list B64.t)
        (embeddings : list item) (limit : Z) (ranking : list scored) :
  Forall (aligned q) embeddings ->
  nan_free (map (score_of q) embeddings) ->
  (Z.of_nat (length embeddings) <= limit)%Z ->
  Permutation ranking (map (score_of q) embeddings) ->
  StronglySorted score_ge ranking ->
  (forall k, filter (same_score k) ranking
             = filter (same_score k) (map (score_of q) embeddings)) ->
  find_relevant_files q embeddings limit = Ok ranking.
Proof.
  intros Hall Hfree Hlimit Hperm Hsorted Hties.
  rewrite find_relevant_files_aligned by exact Hall.
  rewrite slice_stop_all by (now rewrite list_sort_scores_length).
  f_equal. symmetry.
  assert (Hrfree : nan_free ranking).
  { eapply Permutation_Forall; [symmetry; exact Hperm | exact Hfree]. }
  apply (list_sort_reverse_unique score_lt
           (fun x => B64.is_nan (snd x) = false)
           score_lt_asym score_lt_cotrans); auto.
  - apply (StronglySorted_weaken (fun x => B64.is_nan (snd x) = false)
             score_ge); auto.
    intros x y. apply score_ge_not_before.
  - intros [path k] Hk. simpl in Hk.
    unfold nan_free in Hfree, Hrfree. rewrite Forall_forall in Hfree, Hrfree.
    rewrite <- (filter_ext_in (same_score k) (tied score_lt (path, k)) ranking)
      by (intros x Hx; apply tied_same_score; auto).
    rewrite <- (filter_ext_in (same_score k) (tied score_lt (path, k))
                  (map (score_of q) embeddings))
      by (intros x Hx; apply tied_same_score; auto).
    apply Hties.
Qed.

Lemma rank_is_the_stable_descending_order_witness :
  find_relevant_files query_10
    [record "a.py" (vec2 1 0); record "b.py" (vec2 0 1)] 2
  = Ok [("a.py", B64.of_Z 1); ("b.py", B64.of_Z 0)].
Proof.
  apply rank_is_the_stable_descending_order.
  - repeat constructor.
  - repeat constructor.
  - simpl. lia.
  - vm_compute. apply Permutation_refl.
  - repeat constructor.
  - intros k. vm_compute. reflexivity.
Defined.
